(** * torchinductor: symbolic shapes, layouts and the Triton kernel generator

    A shallow embedding of
      - [torchinductor/codegen/triton.py]  ([split_sizes], [TritonKernel]),
      - [torchinductor/ir.py]              ([FixedLayout], [ExpandView]),
      - [torchinductor/shapes.py]          ([SizeVarAllocator]),
    together with the properties their specification states about them.

    Conventions.  Python lists are [list]s, dictionaries are [gmap]s (or
    association lists where the insertion order matters), sets are [gset]s.
    A Python exception is a value of [exn]; code that may raise returns a
    [result].  Code that mutates [self] is written in state-passing style,
    and the state is returned also when the call raises, since the
    mutations made before a Python exception stay visible after it. *)

From Stdlib Require Import ZArith Lia.
From stdpp Require Import gmap strings list fin_maps pretty.

Open Scope string_scope.
Open Scope list_scope.
Open Scope Z_scope.

(** ** Python exceptions and the two monads of the embedding *)

Inductive exn : Type :=
| AssertionError
| KeyError
| TypeError
| IndexError.

Inductive result (A : Type) : Type :=
| Ok (a : A)
| Raise (e : exn).
Arguments Ok {A} a.
Arguments Raise {A} e.

#[global] Instance result_ret : MRet result := λ A a, Ok a.
#[global] Instance result_bind : MBind result := λ A B f r,
  match r with
  | Ok a => f a
  | Raise e => Raise e
  end.

(** A method of an object of class [S]: it reads and updates the object
    and either returns or raises. *)
Definition method (S A : Type) : Type := S → S * result A.

#[global] Instance method_ret {S} : MRet (method S) := λ A a s, (s, Ok a).
#[global] Instance method_bind {S} : MBind (method S) := λ A B f m s,
  match m s with
  | (s', Ok a) => f a s'
  | (s', Raise e) => (s', Raise e)
  end.

Definition raise {S A} (e : exn) : method S A := λ s, (s, Raise e).
Definition gets {S A} (f : S → A) : method S A := λ s, (s, Ok (f s)).
Definition modify {S} (f : S → S) : method S unit := λ s, (f s, Ok tt).
(** [assert c] *)
Definition assert {S} (c : bool) : method S unit :=
  if c then mret tt else raise AssertionError.

(** ** Python lists and strings *)

(** [sep.join(l)] *)
Fixpoint join (sep : string) (l : list string) : string :=
  match l with
  | [] => ""
  | [x] => x
  | x :: l' => x +:+ sep +:+ join sep l'
  end.

(** [l[-1] = f(l[-1])]; on the empty list Python raises [IndexError]. *)
Definition update_last {A} (f : A → A) (l : list A) : result (list A) :=
  match l with
  | [] => Raise IndexError
  | _ => Ok (alter f (pred (length l)) l)
  end.

(** [l[-1]] *)
Definition get_last {A} (l : list A) : result A :=
  match last l with
  | Some x => Ok x
  | None => Raise IndexError
  end.

(** [l[start:]] for a list or tuple [l]: a negative [start] counts from
    the end, and slicing never raises. *)
Definition slice_from {A} (start : Z) (l : list A) : list A :=
  if decide (0 ≤ start) then drop (Z.to_nat start) l
  else drop (Z.to_nat (Z.of_nat (length l) + start)) l.

(** [sub in s] for strings. *)
Fixpoint contains (sub s : string) : bool :=
  String.prefix sub s ||
  match s with
  | EmptyString => false
  | String _ s' => contains sub s'
  end.

(** [iter(n)] for an [int] [n], as in [for i in n]: an integer is not
    iterable. *)
Definition iter_int (n : nat) : result (list nat) := Raise TypeError.

(** [range(n)] *)
Definition range (n : nat) : result (list nat) := Ok (seq 0 n).

(** [for x in it: s = body(x, s)], where obtaining the iterator may raise. *)
Definition for_in {A S} (it : result (list A)) (body : A → S → S) (s : S)
  : result S :=
  xs ← it; mret (foldl (λ s x, body x s) s xs).

(** ** sympy expressions *)

(** The expressions the shape allocator and the IR build: integers and
    symbols, closed under sums and products. *)
Inductive Expr : Type :=
| Integer (z : Z)
| Symbol (name : string)
| Add (a b : Expr)
| Mul (a b : Expr).

#[global] Instance Expr_eq_dec : EqDecision Expr.
Proof. solve_decision. Defined.

(** [str(e)]: the decimal form of an integer, the name of a symbol; sums
    and products print their operands around the operator. *)
Fixpoint str (e : Expr) : string :=
  match e with
  | Integer z => pretty z
  | Symbol name => name
  | Add a b => str a +:+ " + " +:+ str b
  | Mul a b => "(" +:+ str a +:+ ")*(" +:+ str b +:+ ")"
  end.

(** What [TritonKernel.indexing] asks of sympy on an expression type [E]:
    substitution of 0 for a list of symbols, subtraction (with sympy's
    automatic simplification, whatever it is), and comparison with 0. *)
Class SymPy (E : Type) : Type := {
  (** [e.subs({v: 0 for v in vars})] *)
  subs_zero : list E → E → E;
  (** [a - b] *)
  minus : E → E → E;
  (** [e == 0] *)
  is_zero : E → bool;
}.

(** What the kernel takes from its base class and helpers in
    [codegen/common.py], kept abstract: the expression printer [texpr],
    the kernel argument table [self.args] of type [Args] with its [input]
    and [output] methods, [Kernel.rename_indexing] (which may register
    size variables in [self.args]), and the names of the handles of the
    common-subexpression cache. *)
Class Common (E Args : Type) : Type := {
  texpr : E → string;
  args_input : string → Args → string * Args;
  args_output : string → Args → string * Args;
  rename_indexing : E → Args → E * Args;
  newvar : nat → string;
}.

(** What [split_sizes] and [product] ask of the size expressions of type
    [E]: [sympy.Integer(1)], the product [a * b] as sympy builds it, and
    sympy's [a == b], which compares the two expressions as they are
    built and not the values they may take: the equality of [E]. *)
Class SizeExpr (E : Type) : Type := {
  size_one : E;
  size_mul : E → E → E;
  size_eq_dec : EqDecision E;
}.

(** [a == b] *)
Definition size_eqb {E} `{!SizeExpr E} (a b : E) : bool :=
  if size_eq_dec a b then true else false.

(** Integer literals ([sympy.Integer]): the product and [==] are those of
    the integers. *)
#[global] Instance Z_size_expr : SizeExpr Z :=
  {| size_one := 1; size_mul := Z.mul; size_eq_dec := Z.eq_dec |}.

(** ** codegen/triton.py *)

Module Triton.

(** Modelled from the spec: [product], imported from
    [codegen/common.py], the product of a list of sizes (the "prefix
    product" and suffix product of a split), [sympy.Integer(1)] for the
    empty list.  At type [Z] it is the product of integers. *)
Definition product {E} `{!SizeExpr E} (it : list E) : E :=
  foldl size_mul size_one it.

(** The test of one iteration of the loop of [split_sizes]:
    [product(sizes[:i]) == prod1 and product(sizes[i:]) == prod2]. *)
Definition split_at {E} `{!SizeExpr E} (sizes : list E) (prod1 prod2 : E)
  (i : nat) : bool :=
  size_eqb (product (take i sizes)) prod1
  && size_eqb (product (drop i sizes)) prod2.

(** The loop [for i in range(len(sizes))] over the indices still to be
    visited; the first index that passes the test is returned. *)
Fixpoint split_loop {E} `{!SizeExpr E} (sizes : list E) (prod1 prod2 : E)
  (idxs : list nat) : option nat :=
  match idxs with
  | [] => None
  | i :: idxs' =>
      if split_at sizes prod1 prod2 i then Some i
      else split_loop sizes prod1 prod2 idxs'
  end.

(** [def split_sizes(sizes, prod1, prod2)]; Python's [None] is [None]. *)
Definition split_sizes {E} `{!SizeExpr E} (sizes : list E) (prod1 prod2 : E)
  : option nat :=
  split_loop sizes prod1 prod2 (seq 0 (length sizes)).

(** Modelled from the spec: the common-subexpression cache of
    [codegen/common.py] ([self.cse]), "keyed by the rendered expression
    string -- identical textual expressions are computed once and reused by
    reference".  [iter_buffer_ids] numbers the handles minted so far. *)
Record CSE : Type := {
  cache : gmap string string;
  iter_buffer_ids : nat;
}.

(** The three code buffers of a kernel. *)
Inductive buffer : Type := Loads | Compute | Stores.

Section Kernel.
Context {E Args : Type} `{!SymPy E, !Common E Args}.

(** The fields of a [TritonKernel] that [indexing], [mask], [load],
    [store] and [reduction] read or write. *)
Record TritonKernel : Type := {
  args : Args;
  cse : CSE;
  loads : list string;
  compute : list string;
  stores : list string;
  numel : E;
  reduction_numel : E;
  iter_vars : list E;
  reduction_vars : list E;
  inside_reduction : bool;
}.

Definition set_args (a : Args) (k : TritonKernel) : TritonKernel :=
  {| args := a; cse := cse k; loads := loads k; compute := compute k;
     stores := stores k; numel := numel k;
     reduction_numel := reduction_numel k; iter_vars := iter_vars k;
     reduction_vars := reduction_vars k;
     inside_reduction := inside_reduction k |}.

Definition set_cse (c : CSE) (k : TritonKernel) : TritonKernel :=
  {| args := args k; cse := c; loads := loads k; compute := compute k;
     stores := stores k; numel := numel k;
     reduction_numel := reduction_numel k; iter_vars := iter_vars k;
     reduction_vars := reduction_vars k;
     inside_reduction := inside_reduction k |}.

Definition set_inside_reduction (b : bool) (k : TritonKernel)
  : TritonKernel :=
  {| args := args k; cse := cse k; loads := loads k; compute := compute k;
     stores := stores k; numel := numel k;
     reduction_numel := reduction_numel k; iter_vars := iter_vars k;
     reduction_vars := reduction_vars k; inside_reduction := b |}.

(** [buf.writeline(line)] on one of the kernel's buffers. *)
Definition writeline (buf : buffer) (line : string) (k : TritonKernel)
  : TritonKernel :=
  {| args := args k; cse := cse k;
     loads := match buf with Loads => loads k ++ [line] | _ => loads k end;
     compute :=
       match buf with Compute => compute k ++ [line] | _ => compute k end;
     stores :=
       match buf with Stores => stores k ++ [line] | _ => stores k end;
     numel := numel k; reduction_numel := reduction_numel k;
     iter_vars := iter_vars k; reduction_vars := reduction_vars k;
     inside_reduction := inside_reduction k |}.

(** Calls into [codegen/common.py], lifted to methods of the kernel. *)
Definition args_input_m (name : string) : method TritonKernel string :=
  λ k, let '(var, a) := args_input name (args k) in (set_args a k, Ok var).

Definition args_output_m (name : string) : method TritonKernel string :=
  λ k, let '(var, a) := args_output name (args k) in (set_args a k, Ok var).

Definition rename_indexing_m (index : E) : method TritonKernel E :=
  λ k,
    let '(index', a) := rename_indexing index (args k) in
    (set_args a k, Ok index').

(** Modelled from the spec: [self.cse.generate(buffer, expr)].  A cached
    expression returns its handle and writes nothing; a new one gets a
    fresh handle, is written to [buffer] as an assignment to the handle,
    and is cached. *)
Definition cse_generate (buf : buffer) (expr : string)
  : method TritonKernel string :=
  λ k,
    match cache (cse k) !! expr with
    | Some var => (k, Ok var)
    | None =>
        let var := newvar (iter_buffer_ids (cse k)) in
        let k := writeline buf (var +:+ " = " +:+ expr) k in
        (set_cse {| cache := <[expr := var]> (cache (cse k));
                    iter_buffer_ids := S (iter_buffer_ids (cse k)) |} k,
         Ok var)
    end.

(** The three parts [indexing] splits a (renamed) index into. *)
Definition offset_of (k : TritonKernel) (index : E) : E :=
  subs_zero (iter_vars k ++ reduction_vars k) index.

Definition base_part_of (k : TritonKernel) (index : E) : E :=
  minus (subs_zero (reduction_vars k) index) (offset_of k index).

Definition reduction_part_of (k : TritonKernel) (index : E) : E :=
  minus (subs_zero (iter_vars k) index) (offset_of k index).

(** [TritonKernel.indexing(self, index)] *)
Definition indexing (index : E) : method TritonKernel string :=
  index ← rename_indexing_m index;
  offset ← gets (λ k, offset_of k index);
  base_part ← gets (λ k, base_part_of k index);
  reduction_part ← gets (λ k, reduction_part_of k index);
  let addr : list string := [] in
  let addr :=
    if negb (is_zero offset) then addr ++ [texpr offset] else addr in
  let addr :=
    if negb (is_zero base_part) then addr ++ [texpr base_part]
    else addr ++ ["tl.zeros((BLOCK_SIZE, ), tl.int32)"] in
  inside ← gets inside_reduction;
  if inside : bool then
    match
      update_last (λ a, "tl.reshape(" +:+ a +:+ ", (BLOCK_SIZE, 1))") addr
    with
    | Raise e => raise e
    | Ok addr =>
        let addr :=
          if negb (is_zero reduction_part)
          then addr ++ [texpr reduction_part]
          else addr ++ ["tl.zeros((REDUCTION_SIZE, ), tl.int32)"] in
        match
          update_last
            (λ a, "tl.reshape(" +:+ a +:+ ", (1, REDUCTION_SIZE))") addr
        with
        | Raise e => raise e
        | Ok addr => mret (join " + " addr)
        end
    end
  else
    _ ← assert (is_zero reduction_part);
    mret (join " + " addr).

(** [TritonKernel.mask(self, reductions=True)] *)
Definition mask (reductions : bool) (k : TritonKernel) : string :=
  if inside_reduction k && reductions then "mask=mask_reduction"
  else "mask=mask".

(** The text [load] hands to the cache, and the line [store] writes. *)
Definition load_line (var addr msk : string) : string :=
  "tl.load(" +:+ var +:+ " + " +:+ addr +:+ ", " +:+ msk +:+ ")".

Definition store_line (var addr value msk : string) : string :=
  "tl.store(" +:+ var +:+ " + " +:+ addr +:+ ", " +:+ value +:+ ", "
  +:+ msk +:+ ")".

(** [TritonKernel.load(self, name, index)] *)
Definition load (name : string) (index : E) : method TritonKernel string :=
  var ← args_input_m name;
  addr ← indexing index;
  msk ← gets (mask true);
  cse_generate Loads (load_line var addr msk).

(** [TritonKernel.store(self, name, index, value)] *)
Definition store (name : string) (index : E) (value : string)
  : method TritonKernel unit :=
  var ← args_output_m name;
  addr ← indexing index;
  msk ← gets (mask true);
  modify (writeline Stores (store_line var addr value msk)).

(** The dictionary [default] of [reduction]; a missing key raises
    [KeyError]. *)
Definition reduction_default (reduction_type : string) : result string :=
  if decide (reduction_type = "sum") then Ok "0"
  else if decide (reduction_type = "max") then Ok "float('-inf')"
  else if decide (reduction_type = "min") then Ok "float('inf')"
  else Raise KeyError.

Definition where_line (value dflt : string) : string :=
  "tl.where(mask_reduction, " +:+ value +:+ ", " +:+ dflt
  +:+ ") if NEED_MASK else " +:+ value.

Definition reduce_line (reduction_type res : string) : string :=
  "tl." +:+ reduction_type +:+ "(" +:+ res +:+ ", 1)".

(** Modelled from the spec: [ops.store] of the virtualized handler,
    through which "operations in the group call into the Kernel (via a
    virtualized current kernel context) to register loads/stores/
    reductions".  The kernel being built is the current one, so the call
    reaches [store] of [self]. *)
Definition ops_store (name : string) (index : E) (value : string)
  : method TritonKernel unit :=
  store name index value.

(** [TritonKernel.reduction(self, name, dtype, reduction_type, index,
    value)].  [dtype] is not used by the body. *)
Definition reduction (name : string) (reduction_type : string) (index : E)
  (value : string) : method TritonKernel unit :=
  match reduction_default reduction_type with
  | Raise e => raise e
  | Ok dflt =>
      res ← cse_generate Compute (where_line value dflt);
      res ← cse_generate Compute (reduce_line reduction_type res);
      inside ← gets inside_reduction;
      _ ← assert inside;
      _ ← modify (set_inside_reduction false);
      _ ← ops_store name index res;
      modify (set_inside_reduction true)
  end.

(** The part of [codegen_kernel] that binds the mask variables: the text
    spliced (with [strip=True]) right after the offsets, one line per
    element, relative to the indentation of the kernel body. *)
Definition codegen_kernel_mask (k : TritonKernel) : list string :=
  if inside_reduction k then
    [ "reduction0 = tl.arange(0, REDUCTION_SIZE)";
      "if NEED_MASK:";
      "    mask = indices0 < numel";
      "    mask_reduction = (tl.reshape(mask, (BLOCK_SIZE, 1)) &";
      "                      tl.reshape(reduction0 < reduction_numel, (1, REDUCTION_SIZE)))";
      "else:";
      "    mask = None";
      "    mask_reduction = None" ]
  else
    [ "if NEED_MASK:";
      "    mask = indices0 < numel";
      "else:";
      "    mask = None" ].

End Kernel.

Arguments TritonKernel : clear implicits.

End Triton.

(** ** ir.py *)

Module Ir.

(** *** [FixedLayout]

    Sizes, strides and indices are modelled by their integer values. *)

(** [FixedLayout.default_strides(sizes)].  [reversed_strides[-1]] is read
    through [get_last], so that an [IndexError] would show. *)
Definition default_strides (sizes : list Z) : result (list Z) :=
  if decide (length sizes = 0%nat) then Ok []
  else
    reversed_strides ←
      foldl (λ acc size,
               reversed_strides ← acc;
               prev ← get_last reversed_strides;
               mret (reversed_strides ++ [size * prev]))
            (Ok [1]) (reverse (drop 1 sizes));
    mret (reverse reversed_strides).

(** The closure [indexer] returned by [FixedLayout.make_indexer(self)]:
    [sum(...)] adds the products to 0 from the left. *)
Definition make_indexer (stride : list Z) (offset : Z) (index : list Z)
  : result Z :=
  if decide (length index = length stride) then
    Ok (foldl Z.add 0 (zip_with Z.mul index stride) + offset)
  else Raise AssertionError.

(** [FixedLayout.indexer_from_sizes(sizes)]; the default [offset] is 0. *)
Definition indexer_from_sizes (sizes : list Z) (index : list Z) : result Z :=
  stride ← default_strides sizes;
  make_indexer stride 0 index.

(** *** [ExpandView] *)

Section ExpandView.
(** [V] is what a loader returns; [inner] is [self.data.make_loader()],
    [actual] is [self.data.get_size()] and [target] is [self.size]. *)
Context {V : Type}.
Variable target : list Expr.
Variable actual : list Expr.
Variable inner : list Expr → result V.

(** The body of the loop of [load], for one [i]:
    [if actual[i] == 1: index[i] = sympy.Integer(0)]. *)
Definition zero_out (i : nat) (index : list Expr) : list Expr :=
  if decide (actual !! i = Some (Integer 1)) then <[i := Integer 0]> index
  else index.

(** The closure [load] returned by [ExpandView.make_loader(self)].  Its
    loop is written [for i in len(actual)]: it iterates over the integer
    itself. *)
Definition make_loader (index : list Expr) : result V :=
  let skip := Z.of_nat (length target) - Z.of_nat (length actual) in
  let index := slice_from skip index in
  if decide (length index = length actual) then
    index ← for_in (iter_int (length actual)) zero_out index;
    inner index
  else Raise AssertionError.

(** The loader as the specification words it: drop the leading padding
    positions, put the constant 0 at every position where the wrapped
    node has size 1, and call the inner loader. *)
Definition broadcast_index_spec (index : list Expr) : list Expr :=
  zip_with (λ size x, if decide (size = Integer 1) then Integer 0 else x)
           actual (drop (length target - length actual)%nat index).

Definition make_loader_spec (index : list Expr) : result V :=
  inner (broadcast_index_spec index).

End ExpandView.

End Ir.

(** ** shapes.py *)

Module Shapes.

(** [SizeVarAllocator]: [val_to_var] is a dictionary, [var_to_val] an
    ordered dictionary, kept as an association list in insertion order. *)
Record SizeVarAllocator : Type := {
  prefix : string;
  val_to_var : gmap Z Expr;
  var_to_val : list (Expr * Z);
}.

(** [d[key] = value] on an ordered dictionary: an existing key keeps its
    position, a new one goes last. *)
Fixpoint odict_set (key : Expr) (value : Z) (d : list (Expr * Z))
  : list (Expr * Z) :=
  match d with
  | [] => [(key, value)]
  | (k, v) :: d' =>
      if decide (k = key) then (k, value) :: d'
      else (k, v) :: odict_set key value d'
  end.

(** [len(d)] is the number of keys. *)
Definition odict_len (d : list (Expr * Z)) : nat := length d.

(** [SizeVarAllocator.__init__(self, prefix="s", zero_one_const=True)] *)
Definition init (prefix : string) (zero_one_const : bool)
  : SizeVarAllocator :=
  let val_to_var : gmap Z Expr := <[0 := Integer 0]> (<[1 := Integer 1]> ∅) in
  {| prefix := prefix;
     val_to_var := if zero_one_const then val_to_var else ∅;
     var_to_val := [] |}.

(** [SizeVarAllocator.__getitem__(self, val)] *)
Definition getitem (val : Z) (self : SizeVarAllocator)
  : Expr * SizeVarAllocator :=
  match val_to_var self !! val with
  | Some var => (var, self)
  | None =>
      let var := Symbol (prefix self +:+ pretty (odict_len (var_to_val self))) in
      (var,
       {| prefix := prefix self;
          val_to_var := <[val := var]> (val_to_var self);
          var_to_val := odict_set var val (var_to_val self) |})
  end.

(** A graph input, as far as [codegen] looks at it. *)
Record InputBuffer : Type := {
  get_size : list Expr;
  get_stride : list Expr;
}.

(** The state of the two scans of [codegen]: the set [needed] and the
    lines written to [code]. *)
Definition scan_state : Type := gset string * list string.

(** [f"{shape} = {name}.size({dim})"], with [size] or [stride]. *)
Definition binding_line (shape name what : string) (dim : nat) : string :=
  shape +:+ " = " +:+ name +:+ "." +:+ what +:+ "(" +:+ pretty dim +:+ ")".

(** One iteration of an inner loop: [for dim, shape in enumerate(shapes)]. *)
Definition scan_dim (what name : string) (st : scan_state)
  (dim_shape : nat * Expr) : scan_state :=
  let '(needed, code) := st in
  let '(dim, shape) := dim_shape in
  let shape := str shape in
  if decide (shape ∈ needed) then
    (needed ∖ {[shape]}, code ++ [binding_line shape name what dim])
  else (needed, code).

(** [enumerate(l)] *)
Definition enumerate {A} (l : list A) : list (nat * A) := imap pair l.

(** One of the two outer loops:
    [for name, value in graph_inputs.items(): shapes = value.get(); ...]. *)
Definition scan (what : string) (get : InputBuffer → list Expr)
  (graph_inputs : list (string * InputBuffer)) (st : scan_state)
  : scan_state :=
  foldl (λ st '(name, value), foldl (scan_dim what name) st (enumerate (get value)))
        st graph_inputs.

(** [SizeVarAllocator.codegen(self, code, graph_inputs)]: the lines of
    [code] after the call, and whether the final [assert] passed.
    [graph_inputs] is a dictionary iterated in insertion order. *)
Definition codegen (self : SizeVarAllocator) (code : list string)
  (graph_inputs : list (string * InputBuffer)) : list string * result unit :=
  let needed : gset string := list_to_set (map (λ kv, str kv.1) (var_to_val self)) in
  let st := scan "size" get_size graph_inputs (needed, code) in
  let '(needed, code) := scan "stride" get_stride graph_inputs st in
  (code, if decide (needed = ∅) then Ok tt else Raise AssertionError).

End Shapes.

(** ** A small instance of the sympy and kernel-argument interfaces

    Enough to run the kernel on concrete indices: symbols are replaced by
    0 and the integer constants are folded. *)

Module Plain.

(** Sums keep their integer constant in front. *)
Definition add (a b : Expr) : Expr :=
  match a, b with
  | Integer x, Integer y => Integer (x + y)
  | Integer 0, _ => b
  | _, Integer 0 => a
  | Add (Integer x) e, Integer y => Add (Integer (x + y)) e
  | _, Integer y => Add (Integer y) a
  | _, _ => Add a b
  end.

Definition mul (a b : Expr) : Expr :=
  match a, b with
  | Integer x, Integer y => Integer (x * y)
  | Integer 0, _ => Integer 0
  | _, Integer 0 => Integer 0
  | Integer 1, _ => b
  | _, Integer 1 => a
  | _, _ => Mul a b
  end.

Fixpoint subs0 (vars : list Expr) (e : Expr) : Expr :=
  match e with
  | Integer z => Integer z
  | Symbol name => if bool_decide (Symbol name ∈ vars) then Integer 0 else e
  | Add a b => add (subs0 vars a) (subs0 vars b)
  | Mul a b => mul (subs0 vars a) (subs0 vars b)
  end.

Definition sub (a b : Expr) : Expr :=
  if decide (a = b) then Integer 0
  else
    match a, b with
    | Integer x, Integer y => Integer (x - y)
    | _, Integer 0 => a
    | Add (Integer x) e, Integer y => add (Integer (x - y)) e
    | _, _ => Add a (Mul (Integer (-1)) b)
    end.

#[global] Instance sympy : SymPy Expr :=
  {| subs_zero := subs0;
     minus := sub;
     is_zero := λ e, bool_decide (e = Integer 0) |}.

#[global] Instance common : Common Expr unit :=
  {| texpr := str;
     args_input := λ name a, (name, a);
     args_output := λ name a, (name, a);
     rename_indexing := λ e a, (e, a);
     newvar := λ n, "tmp" +:+ pretty n |}.

(** A kernel with one iteration variable [i0] and one reduction variable
    [r0], and nothing generated yet. *)
Definition kernel (inside : bool) : Triton.TritonKernel Expr unit :=
  {| Triton.args := tt;
     Triton.cse := {| Triton.cache := ∅; Triton.iter_buffer_ids := 0 |};
     Triton.loads := []; Triton.compute := []; Triton.stores := [];
     Triton.numel := Symbol "s0";
     Triton.reduction_numel := if inside then Symbol "s1" else Integer 1;
     Triton.iter_vars := [Symbol "i0"];
     Triton.reduction_vars := [Symbol "r0"];
     Triton.inside_reduction := inside |}.

End Plain.

(** ** Symbolic sizes

    The sizes the allocator hands out are integers and symbols, and sympy
    keeps a product of such factors as one term: an integer coefficient
    and the symbols with their exponents, in no particular order; a zero
    factor makes the product 0.  Two products are [==] when they are the
    same term. *)

Module Monomial.

Definition monomial : Type := Z * gmap string nat.

(** [sympy.Integer(z)] and [sympy.Symbol(name)] *)
Definition integer (z : Z) : monomial := (z, ∅).
Definition symbol (name : string) : monomial := (1, {[name := 1%nat]}).

(** [a * b] *)
Definition mul (a b : monomial) : monomial :=
  if decide (a.1 * b.1 = 0) then (0, ∅)
  else (a.1 * b.1, union_with (λ m n, Some (m + n)%nat) a.2 b.2).

#[global] Instance monomial_size_expr : SizeExpr monomial :=
  {| size_one := integer 1; size_mul := mul;
     size_eq_dec := prod_eq_dec |}.

(** The value of a term when the symbols take the values [env]. *)
Definition value (env : string → Z) (a : monomial) : Z :=
  a.1 * map_fold (λ name n acc, env name ^ Z.of_nat n * acc) 1 a.2.

End Monomial.

(** ** The specification's statements, as predicates on the code *)

Module Spec.

(** Index [i] is a split point of [sizes] for [(prod1, prod2)]: the
    product of the first [i] sizes is the expression [prod1] and the
    product of the others is the expression [prod2]. *)
Definition is_split {E} `{!SizeExpr E} (sizes : list E) (prod1 prod2 : E)
  (i : nat) : Prop :=
  Triton.product (take i sizes) = prod1
  ∧ Triton.product (drop i sizes) = prod2.

(** "For all size lists [L] and target products [(p1, p2)] with
    [p1*p2 == product(L)] and some prefix achieving [p1], [split_sizes]
    returns that prefix length; otherwise it returns no split" -- read
    in the way that asks least of the code: the prefix is any prefix of
    [L], the whole list included, whose product is [p1] and whose suffix
    has product [p2], and the length returned is that of some such
    prefix. *)
Definition split_sizes_claim {E} `{!SizeExpr E} (L : list E) (p1 p2 : E)
  : Prop :=
  size_mul p1 p2 = Triton.product L →
  ((∃ k, (k ≤ length L)%nat ∧ is_split L p1 p2 k) →
   ∃ k, Triton.split_sizes L p1 p2 = Some k ∧ is_split L p1 p2 k)
  ∧ ((∀ k, (k ≤ length L)%nat → ¬ is_split L p1 p2 k) →
     Triton.split_sizes L p1 p2 = None).

(** Contiguous row-major strides of the dimensions [l] that follow the
    first one: the suffix products of [l], the last of which is 1. *)
Fixpoint suffix_products (l : list Z) : list Z :=
  match l with
  | [] => [1]
  | x :: l' => x * default 1 (head (suffix_products l')) :: suffix_products l'
  end.

(** The allocator after the lookups of [vals], one after the other. *)
Definition lookups (vals : list Z) (self : Shapes.SizeVarAllocator)
  : Shapes.SizeVarAllocator :=
  foldl (λ self val, (Shapes.getitem val self).2) self vals.

(** A place where a variable can be bound: the printed shape found
    there, the input's name, [size] or [stride], and the dimension. *)
Record candidate : Type := Candidate {
  shape : string;
  input : string;
  what : string;
  dim : nat;
}.

(** The binding statement for a candidate: [var = input.size(dim)] or
    [var = input.stride(dim)]. *)
Definition render (c : candidate) : string :=
  shape c +:+ " = " +:+ input c +:+ "." +:+ what c
  +:+ "(" +:+ pretty (dim c) +:+ ")".

(** The candidates of one scan, input by input and dimension by
    dimension; and of the whole of [codegen]: sizes first, then strides. *)
Definition candidates (what : string) (get : Shapes.InputBuffer → list Expr)
  (graph_inputs : list (string * Shapes.InputBuffer)) : list candidate :=
  '(name, value) ← graph_inputs;
  (λ ds : nat * Expr, Candidate (str ds.2) name what ds.1)
    <$> Shapes.enumerate (get value).

Definition all_candidates (graph_inputs : list (string * Shapes.InputBuffer))
  : list candidate :=
  candidates "size" Shapes.get_size graph_inputs
  ++ candidates "stride" Shapes.get_stride graph_inputs.

(** The names of the symbolic variables of an allocator. *)
Definition symbolic_vars (self : Shapes.SizeVarAllocator) : gset string :=
  list_to_set (map (λ kv, str kv.1) (Shapes.var_to_val self)).

(** Candidate [c] stands at position [i] of [cands], and no candidate
    before it has the same shape. *)
Definition first_match (cands : list candidate) (i : nat) (c : candidate)
  : Prop :=
  cands !! i = Some c
  ∧ ∀ (j : nat) c', (j < i)%nat → cands !! j = Some c' → shape c' ≠ shape c.

(** The candidates that get a binding, for a set of needed names. *)
Fixpoint bound (needed : gset string) (cands : list candidate)
  : list candidate :=
  match cands with
  | [] => []
  | c :: cands' =>
      if decide (shape c ∈ needed)
      then c :: bound (needed ∖ {[shape c]}) cands'
      else bound needed cands'
  end.

(** One step of either scan of [codegen], on a candidate. *)
Definition step (st : Shapes.scan_state) (c : candidate) : Shapes.scan_state :=
  if decide (shape c ∈ st.1) then (st.1 ∖ {[shape c]}, st.2 ++ [render c])
  else st.

(** The address components of the indexing engine, in the specification's
    words: the offset if it is not zero; then the base part, or a block of
    zeros; then, inside a reduction only, the reduction part or zeros, the
    base component being reshaped to a column and the reduction component
    to a row. *)
Section Address.
Context {E Args : Type} `{!SymPy E, !Common E Args}.

Definition column (a : string) : string :=
  "tl.reshape(" +:+ a +:+ ", (BLOCK_SIZE, 1))".
Definition row (a : string) : string :=
  "tl.reshape(" +:+ a +:+ ", (1, REDUCTION_SIZE))".

Definition part_or_zeros (part : E) (block : string) : string :=
  if is_zero part then "tl.zeros((" +:+ block +:+ ", ), tl.int32)"
  else texpr part.

Definition address (inside : bool) (offset base_part reduction_part : E)
  : list string :=
  (if is_zero offset then [] else [texpr offset])
  ++ (if inside
      then [column (part_or_zeros base_part "BLOCK_SIZE");
            row (part_or_zeros reduction_part "REDUCTION_SIZE")]
      else [part_or_zeros base_part "BLOCK_SIZE"]).
End Address.

(** [ExpandView]'s loader with the loop header [for i in
    range(len(actual))], the loop its comment ("zero out broadcast
    dimension") describes. *)
Definition make_loader_range {V} (target actual : list Expr)
  (inner : list Expr → result V) (index : list Expr) : result V :=
  let skip := Z.of_nat (length target) - Z.of_nat (length actual) in
  let index := slice_from skip index in
  if decide (length index = length actual) then
    index ← for_in (range (length actual)) (Ir.zero_out actual) index;
    inner index
  else Raise AssertionError.

(** "Emitted lines never reference the mask variable." *)
Definition never_references_mask (lines : list string) : Prop :=
  ∀ line, line ∈ lines → contains "mask" line = false.

End Spec.

(** ** Row-major addressing, for the properties of [FixedLayout] *)

Module Layout.

(** The row-major offset of [index] in an array of shape [sizes]: each
    index is weighted by the product of the sizes that follow it. *)
Fixpoint ravel (sizes index : list Z) : Z :=
  match sizes, index with
  | _ :: sizes', i :: index' =>
      i * Triton.product sizes' + ravel sizes' index'
  | _, _ => 0
  end.

(** The index whose row-major offset in shape [sizes] is [offset]. *)
Fixpoint unravel (sizes : list Z) (offset : Z) : list Z :=
  match sizes with
  | [] => []
  | _ :: sizes' =>
      offset `div` Triton.product sizes'
      :: unravel sizes' (offset `mod` Triton.product sizes')
  end.

(** Every component of [index] is within the bounds of its dimension. *)
Definition in_bounds (sizes index : list Z) : Prop :=
  Forall2 (λ i size, 0 ≤ i < size) index sizes.

End Layout.

(** ** The allocator's bookkeeping, for the properties of
    [SizeVarAllocator] *)

Module Alloc.

(** The [i]-th variable an allocator with prefix [prefix] mints. *)
Definition nth_var (prefix : string) (i : nat) : Expr :=
  Symbol (prefix +:+ pretty i).

(** The forward and the reverse dictionary of an allocator agree: the
    variables are numbered in the order they were minted, a value maps to
    a folded constant (0 or 1) or to a variable recorded for it, and every
    recorded variable is what its value maps to. *)
Record consistent (self : Shapes.SizeVarAllocator) : Prop := {
  keys_numbered :
    (Shapes.var_to_val self).*1
    = nth_var (Shapes.prefix self)
        <$> seq 0 (length (Shapes.var_to_val self));
  forward :
    ∀ val var, Shapes.val_to_var self !! val = Some var →
      (var = Integer val ∧ (val = 0 ∨ val = 1))
      ∨ (var, val) ∈ Shapes.var_to_val self;
  backward :
    ∀ var val, (var, val) ∈ Shapes.var_to_val self →
      Shapes.val_to_var self !! val = Some var;
}.

(** [[self[val] for val in vals]], threading the allocator. *)
Fixpoint getitems (vals : list Z) (self : Shapes.SizeVarAllocator)
  : list Expr * Shapes.SizeVarAllocator :=
  match vals with
  | [] => ([], self)
  | val :: vals' =>
      let '(var, self) := Shapes.getitem val self in
      let '(vars, self) := getitems vals' self in
      (var :: vars, self)
  end.

(** Graph inputs whose sizes and strides are obtained from the allocator:
    each input is given by its name and its concrete sizes and strides. *)
Fixpoint inputs_of (descr : list (string * (list Z * list Z)))
  (self : Shapes.SizeVarAllocator)
  : list (string * Shapes.InputBuffer) * Shapes.SizeVarAllocator :=
  match descr with
  | [] => ([], self)
  | (name, (sizes, strides)) :: descr' =>
      let '(size, self) := getitems sizes self in
      let '(stride, self) := getitems strides self in
      let '(inputs, self) := inputs_of descr' self in
      ((name, {| Shapes.get_size := size; Shapes.get_stride := stride |})
         :: inputs, self)
  end.

End Alloc.

(** ** codegen/triton.py: the range trees of a kernel *)

Module Ranges.

(** What the range trees use beyond [SymPy] and [Common]:
    [sympy.Symbol(name)], [sympy.Integer(1)], Python's [str] of an
    expression, [Kernel.rename_indexing] applied to a list of sizes (for
    its effect on [self.args]; the renamed list is dropped),
    [TritonPrinter.paren], and the argument table a new kernel starts
    with. *)
Class RangeEnv (E Args : Type) : Type := {
  symbol : string → E;
  one : E;
  str_of : E → string;
  rename_indexing_list : list E → Args → Args;
  paren : string → string;
  args_init : Args;
}.

Section RangeTrees.
Context {E Args : Type}.
Context `{!SymPy E, !Common E Args, !RangeEnv E Args, !EqDecision E}.

(** A range tree: a dictionary from a size to the variable that ranges
    over it and the tree of the sizes that follow, in insertion order. *)
Inductive range_tree : Type :=
| RangeTree (items : list (E * (E * range_tree))).

Definition items (tree : range_tree) : list (E * (E * range_tree)) :=
  match tree with RangeTree items => items end.

(** [dict()] *)
Definition empty_tree : range_tree := RangeTree [].

(** [tree[sv]], when [sv in tree]. *)
Fixpoint tree_get (sv : E) (its : list (E * (E * range_tree)))
  : option (E * range_tree) :=
  match its with
  | [] => None
  | (size, entry) :: its' =>
      if decide (size = sv) then Some entry else tree_get sv its'
  end.

(** [tree[sv] = entry]: an existing key keeps its place, a new one goes
    last. *)
Fixpoint tree_set (sv : E) (entry : E * range_tree)
  (its : list (E * (E * range_tree))) : list (E * (E * range_tree)) :=
  match its with
  | [] => [(sv, entry)]
  | (size, old) :: its' =>
      if decide (size = sv) then (size, entry) :: its'
      else (size, old) :: tree_set sv entry its'
  end.

(** What the loop of [_add_ranges] does from one tree on: the variables
    it returns, the variables it appends to [var_list], the tree after the
    updates made in place along the path, and the counter.  A size that is
    not in the tree gets the symbol named [prefix] followed by the next
    count, over an empty subtree. *)
Fixpoint add_path (prefix : string) (lengths : list E) (tree : range_tree)
  (count : nat) : list E * list E * range_tree * nat :=
  match lengths with
  | [] => ([], [], tree, count)
  | sv :: lengths' =>
      match tree_get sv (items tree) with
      | Some (sym, subtree) =>
          let '(itervars, new, subtree, count) :=
            add_path prefix lengths' subtree count in
          (sym :: itervars, new,
           RangeTree (tree_set sv (sym, subtree) (items tree)), count)
      | None =>
          let sym := symbol (prefix +:+ pretty count) in
          let '(itervars, new, subtree, count) :=
            add_path prefix lengths' empty_tree (S count) in
          (sym :: itervars, sym :: new,
           RangeTree (tree_set sv (sym, subtree) (items tree)), count)
      end
  end.

(** The path [lengths] is in the tree and leads to [vars]: every size is
    found, nothing is minted, and the tree stays as it is. *)
Definition resolved (prefix : string) (lengths : list E) (tree : range_tree)
  (vars : list E) : Prop :=
  ∀ count, add_path prefix lengths tree count = (vars, [], tree, count).

(** The variables of a tree. *)
Fixpoint tree_vars (tree : range_tree) : list E :=
  match tree with
  | RangeTree its =>
      (fix go (its : list (E * (E * range_tree))) : list E :=
         match its with
         | [] => []
         | (_, (var, subtree)) :: its' => var :: tree_vars subtree ++ go its'
         end) its
  end.

(** A [TritonKernel] with its range trees and the counter
    [iter_vars_count] shared by the two trees. *)
Record RangedKernel : Type := {
  kernel : Triton.TritonKernel E Args;
  iter_range_tree : range_tree;
  reduction_range_tree : range_tree;
  iter_vars_count : nat;
}.

Definition with_vars (iter_vars reduction_vars : list E)
  (k : Triton.TritonKernel E Args) : Triton.TritonKernel E Args :=
  {| Triton.args := Triton.args k; Triton.cse := Triton.cse k;
     Triton.loads := Triton.loads k; Triton.compute := Triton.compute k;
     Triton.stores := Triton.stores k; Triton.numel := Triton.numel k;
     Triton.reduction_numel := Triton.reduction_numel k;
     Triton.iter_vars := iter_vars; Triton.reduction_vars := reduction_vars;
     Triton.inside_reduction := Triton.inside_reduction k |}.

(** [lengths[:-1]] *)
Definition all_but_last (lengths : list E) : list E :=
  take (length lengths - 1) lengths.

(** Modelled from the spec: what [Kernel.__init__] of
    [codegen/common.py] sets up before [TritonKernel.__init__] goes on --
    the argument table, the "three ordered code buffers (loads, computed
    expressions, stores), and a common-subexpression cache", all empty. *)
Definition base_init
  : Args * Triton.CSE * list string * list string * list string :=
  (args_init, {| Triton.cache := ∅; Triton.iter_buffer_ids := 0 |},
   [], [], []).

(** [TritonKernel.__init__(self, numel, reduction_numel)] *)
Definition init (numel : E) (reduction_numel : option E) : RangedKernel :=
  let '(args, cse, loads, compute, stores) := base_init in
  let reduction_numel := default one reduction_numel in
  {| kernel :=
       {| Triton.args := args; Triton.cse := cse;
          Triton.loads := loads; Triton.compute := compute;
          Triton.stores := stores;
          Triton.numel := numel;
          Triton.reduction_numel := reduction_numel;
          Triton.iter_vars := []; Triton.reduction_vars := [];
          Triton.inside_reduction :=
            bool_decide (reduction_numel ≠ one) |};
     iter_range_tree := empty_tree;
     reduction_range_tree := empty_tree;
     iter_vars_count := 0 |}.

(** [TritonKernel.add_ranges(self, lengths)]:
    [_add_ranges(lengths, self.iter_vars, self.iter_range_tree, "i")]. *)
Definition add_ranges (lengths : list E) (self : RangedKernel)
  : list E * RangedKernel :=
  let k := kernel self in
  let k :=
    Triton.set_args
      (rename_indexing_list (all_but_last lengths) (Triton.args k)) k in
  let '(itervars, new, tree, count) :=
    add_path "i" lengths (iter_range_tree self) (iter_vars_count self) in
  (itervars,
   {| kernel :=
        with_vars (Triton.iter_vars k ++ new) (Triton.reduction_vars k) k;
      iter_range_tree := tree;
      reduction_range_tree := reduction_range_tree self;
      iter_vars_count := count |}).

(** [TritonKernel.add_reduction_ranges(self, lengths)]:
    [_add_ranges(lengths, self.reduction_vars, self.reduction_range_tree,
    "r")]. *)
Definition add_reduction_ranges (lengths : list E) (self : RangedKernel)
  : list E * RangedKernel :=
  let k := kernel self in
  let k :=
    Triton.set_args
      (rename_indexing_list (all_but_last lengths) (Triton.args k)) k in
  let '(itervars, new, tree, count) :=
    add_path "r" lengths (reduction_range_tree self) (iter_vars_count self) in
  (itervars,
   {| kernel :=
        with_vars (Triton.iter_vars k) (Triton.reduction_vars k ++ new) k;
      iter_range_tree := iter_range_tree self;
      reduction_range_tree := tree;
      iter_vars_count := count |}).

(** [TritonKernel.set_ranges(self, lengths, reduction_lengths)] *)
Definition set_ranges (lengths reduction_lengths : list E)
  (self : RangedKernel) : (list E * list E) * RangedKernel :=
  let '(itervars, self) := add_ranges lengths self in
  let '(reduction_vars, self) := add_reduction_ranges reduction_lengths self in
  ((itervars, reduction_vars), self).

(** A sequence of [set_ranges] calls, as the scheduler makes them on one
    kernel; each call is given by its two lists of sizes. *)
Definition set_ranges_all (calls : list (list E * list E))
  (self : RangedKernel) : RangedKernel :=
  foldl (λ self call, (set_ranges call.1 call.2 self).2) self calls.

(** The bookkeeping of a kernel's variables: the two variable lists hold
    the variables of the two trees, the iteration variables are named [i]
    and the reduction variables [r] followed by a number, and the numbers
    used are, together, the numbers below the counter, each used once. *)
Record well_numbered (self : RangedKernel) : Prop := {
  iter_vars_tree :
    ∀ v, v ∈ tree_vars (iter_range_tree self)
         ↔ v ∈ Triton.iter_vars (kernel self);
  reduction_vars_tree :
    ∀ v, v ∈ tree_vars (reduction_range_tree self)
         ↔ v ∈ Triton.reduction_vars (kernel self);
  numbers :
    ∃ ns rs : list nat,
      Triton.iter_vars (kernel self)
      = (λ i : nat, symbol ("i" +:+ pretty i)) <$> ns
      ∧ Triton.reduction_vars (kernel self)
        = (λ i : nat, symbol ("r" +:+ pretty i)) <$> rs
      ∧ ns ++ rs ≡ₚ seq 0 (iter_vars_count self);
}.

(** *** The index prologue of [codegen_kernel] *)

(** What [walk_indices] reads and writes: the lines written to [code],
    the counter [cnt] and, through [rename_indexing], [self.args]. *)
Record walk_state : Type := {
  code : list string;
  cnt : nat;
  wargs : Args;
}.

Definition emit (line : string) (st : walk_state) : walk_state :=
  {| code := code st ++ [line]; cnt := cnt st; wargs := wargs st |}.

(** The body of the loop of [walk_indices] for one item of the tree, given
    the function to call on the subtree.  An empty subtree is false. *)
Definition walk_item (walk : string → range_tree → walk_state → walk_state)
  (indices subindices : string) (st : walk_state)
  (item : E * (E * range_tree)) : walk_state :=
  let '(size, (var, subtree)) := item in
  match subtree with
  | RangeTree [] => emit (str_of var +:+ " = " +:+ indices) st
  | RangeTree (_ :: _) =>
      let '(size, a) := rename_indexing size (wargs st) in
      let st := {| code := code st; cnt := cnt st; wargs := a |} in
      let size := paren (texpr size) in
      let st := emit (str_of var +:+ " = " +:+ indices +:+ " % " +:+ size) st in
      let st :=
        emit (subindices +:+ " = " +:+ indices +:+ " // " +:+ size) st in
      walk subindices subtree st
  end.

(** [walk_indices(indices, tree, prefix, cnt)], local to
    [codegen_kernel]; the lines are relative to the indentation of the
    kernel body. *)
Fixpoint walk_indices (prefix : string) (indices : string)
  (tree : range_tree) (st : walk_state) : walk_state :=
  match tree with
  | RangeTree its =>
      let subindices := prefix +:+ pretty (cnt st) in
      let st := {| code := code st; cnt := S (cnt st); wargs := wargs st |} in
      foldl (walk_item (walk_indices prefix) indices subindices) st its
  end.

(** The two calls of [walk_indices] in [codegen_kernel]: the iteration
    tree from [indices0], then the reduction tree from [reduction0], each
    with its own counter starting at 1.  The result is the lines written
    and [self.args] afterwards. *)
Definition codegen_kernel_indices (self : RangedKernel)
  : list string * Args :=
  let st :=
    walk_indices "indices" "indices0" (iter_range_tree self)
      {| code := []; cnt := 1; wargs := Triton.args (kernel self) |} in
  let st :=
    walk_indices "reduction" "reduction0" (reduction_range_tree self)
      {| code := code st; cnt := 1; wargs := wargs st |} in
  (code st, wargs st).

End RangeTrees.

Arguments range_tree : clear implicits.
Arguments RangedKernel : clear implicits.

End Ranges.

(** The plain instance of the range-tree interface. *)
Module PlainRanges.

#[global] Instance range_env : Ranges.RangeEnv Expr unit :=
  {| Ranges.symbol := Symbol;
     Ranges.one := Integer 1;
     Ranges.str_of := str;
     Ranges.rename_indexing_list := λ _ a, a;
     Ranges.paren := λ s, "(" +:+ s +:+ ")";
     Ranges.args_init := tt |}.

End PlainRanges.


(** * Properties *)

(** ** [split_sizes] *)

Section ProductZ.
Import Triton.

Lemma foldl_mul (a : Z) (l : list Z) : foldl Z.mul a l = a * product l.
Proof.
  unfold product. simpl. revert a.
  induction l as [|y l IH]; intros a; simpl; [lia|].
  rewrite IH, (IH (1 * y)). lia.
Qed.

Lemma product_cons (x : Z) (l : list Z) : product (x :: l) = x * product l.
Proof. unfold product at 1. simpl. rewrite foldl_mul. lia. Qed.

Lemma product_nil : product ([] : list Z) = 1.
Proof. reflexivity. Qed.

End ProductZ.

Section SplitSizes.
Import Triton Spec.
Context {E : Type} `{!SizeExpr E}.
Implicit Types (sizes : list E).

Lemma size_eqb_eq (a b : E) : size_eqb a b = true ↔ a = b.
Proof. unfold size_eqb. by destruct (size_eq_dec a b). Qed.

Lemma split_at_is_split sizes prod1 prod2 i :
  split_at sizes prod1 prod2 i = true ↔ is_split sizes prod1 prod2 i.
Proof.
  unfold split_at, is_split.
  rewrite andb_true_iff, !size_eqb_eq. tauto.
Qed.

Lemma split_at_not_split sizes prod1 prod2 i :
  split_at sizes prod1 prod2 i = false ↔ ¬ is_split sizes prod1 prod2 i.
Proof.
  rewrite <- split_at_is_split. destruct (split_at _ _ _ _); naive_solver.
Qed.

(** The loop returns the first index of the range that passes the test. *)
Lemma split_loop_Some sizes prod1 prod2 (n a i : nat) :
  split_loop sizes prod1 prod2 (seq a n) = Some i ↔
  (a ≤ i < a + n)%nat ∧ is_split sizes prod1 prod2 i
  ∧ ∀ j, (a ≤ j < i)%nat → ¬ is_split sizes prod1 prod2 j.
Proof.
  revert a. induction n as [|n IH]; intros a; simpl.
  - split; [discriminate | lia].
  - destruct (split_at sizes prod1 prod2 a) eqn:Ha.
    + apply split_at_is_split in Ha. split.
      * intros [= <-]. split; [lia|]. split; [done|]. intros j Hj. lia.
      * intros (Hr & Hi & Hmin). f_equal.
        destruct (decide (a = i)) as [|Hne]; [done|].
        exfalso. apply (Hmin a); [lia | done].
    + apply split_at_not_split in Ha. rewrite IH. split.
      * intros (Hr & Hi & Hmin). split; [lia|]. split; [done|].
        intros j Hj. destruct (decide (j = a)) as [->|]; [done|].
        apply Hmin. lia.
      * intros (Hr & Hi & Hmin).
        assert (a ≠ i) by (intros ->; done).
        split; [lia|]. split; [done|].
        intros j Hj. apply Hmin. lia.
Qed.

Lemma split_loop_None sizes prod1 prod2 (n a : nat) :
  split_loop sizes prod1 prod2 (seq a n) = None ↔
  ∀ j, (a ≤ j < a + n)%nat → ¬ is_split sizes prod1 prod2 j.
Proof.
  revert a. induction n as [|n IH]; intros a; simpl.
  - split; [lia | done].
  - destruct (split_at sizes prod1 prod2 a) eqn:Ha.
    + apply split_at_is_split in Ha. split; [discriminate|].
      intros Hno. exfalso. apply (Hno a); [lia | done].
    + apply split_at_not_split in Ha. rewrite IH. split.
      * intros Hno j Hj. destruct (decide (j = a)) as [->|]; [done|].
        apply Hno. lia.
      * intros Hno j Hj. apply Hno. lia.
Qed.

(** What [split_sizes] computes, exactly: the least split point among
    the indices [0 .. len(sizes)-1]. *)
Lemma split_sizes_Some sizes prod1 prod2 (i : nat) :
  split_sizes sizes prod1 prod2 = Some i ↔
  (i < length sizes)%nat ∧ is_split sizes prod1 prod2 i
  ∧ ∀ j, (j < i)%nat → ¬ is_split sizes prod1 prod2 j.
Proof.
  unfold split_sizes. rewrite split_loop_Some. split.
  - intros (? & Hs & Hmin). split; [lia|]. split; [done|].
    intros j Hj. apply Hmin. lia.
  - intros (? & Hs & Hmin). split; [lia|]. split; [done|].
    intros j Hj. apply Hmin. lia.
Qed.

Lemma split_sizes_None sizes prod1 prod2 :
  split_sizes sizes prod1 prod2 = None ↔
  ∀ j, (j < length sizes)%nat → ¬ is_split sizes prod1 prod2 j.
Proof.
  unfold split_sizes. rewrite split_loop_None. split.
  - intros Hno j Hj. apply Hno. lia.
  - intros Hno j Hj. apply Hno. lia.
Qed.

(** C1 (as amended).  For size expressions of any kind, compared as
    sympy's [==] compares them: if some proper prefix of [sizes] has
    product [prod1] and the suffix after it has product [prod2],
    [split_sizes] returns the length of the shortest such prefix; if no
    index up to and including [len(sizes)] is such a split point, it
    returns [None]. *)
Theorem split_sizes_shortest_split sizes prod1 prod2 :
  ((∃ i, (i < length sizes)%nat ∧ is_split sizes prod1 prod2 i) →
   ∃ k, split_sizes sizes prod1 prod2 = Some k
        ∧ (k < length sizes)%nat
        ∧ is_split sizes prod1 prod2 k
        ∧ ∀ j, (j < k)%nat → ¬ is_split sizes prod1 prod2 j)
  ∧ ((∀ i, (i ≤ length sizes)%nat → ¬ is_split sizes prod1 prod2 i) →
     split_sizes sizes prod1 prod2 = None).
Proof.
  split.
  - intros (i & Hi & Hs).
    destruct (split_sizes sizes prod1 prod2) as [k|] eqn:Hk.
    + exists k. split; [done|]. by apply split_sizes_Some.
    + exfalso. rewrite split_sizes_None in Hk. by apply (Hk i).
  - intros Hno. apply split_sizes_None. intros j Hj. apply Hno. lia.
Qed.

End SplitSizes.

Section SplitSizesExamples.
Import Triton Spec Monomial.

(** The amended statement on the symbolic sizes [[s0; s1; s2]] with the
    targets [s0*s1] and [s2]. *)
Lemma split_sizes_shortest_split_witness :
  let sizes := [symbol "s0"; symbol "s1"; symbol "s2"] in
  let prod1 := mul (symbol "s0") (symbol "s1") in
  let prod2 := symbol "s2" in
  ∃ k, split_sizes sizes prod1 prod2 = Some k
       ∧ (k < length sizes)%nat
       ∧ is_split sizes prod1 prod2 k
       ∧ ∀ j, (j < k)%nat → ¬ is_split sizes prod1 prod2 j.
Proof.
  intros sizes prod1 prod2.
  apply (proj1 (split_sizes_shortest_split sizes prod1 prod2)).
  exists 2%nat. split; [simpl; lia | split; vm_compute; reflexivity].
Defined.

(** Sizes are compared as expressions, not as values: when [s0], [s1]
    and [s2] stand for 2, 3 and 6, the targets [s2] and [s0*s1] have the
    values of the split of [[s0; s1; s2]] after two sizes, which is found
    on the values; but no prefix of the list is the expression [s2], and
    the result is [None].  The targets [s1*s0] and [s2] are found,
    whatever the order of the factors. *)
Example split_sizes_symbolic :
  let sizes := [symbol "s0"; symbol "s1"; symbol "s2"] in
  let env (name : string) : Z :=
    if decide (name = "s0") then 2
    else if decide (name = "s1") then 3 else 6 in
  value env <$> sizes = [2; 3; 6]
  ∧ value env (symbol "s2") = 6
  ∧ value env (mul (symbol "s0") (symbol "s1")) = 6
  ∧ split_sizes [2; 3; 6] 6 6 = Some 2%nat
  ∧ split_sizes sizes (symbol "s2") (mul (symbol "s0") (symbol "s1")) = None
  ∧ split_sizes sizes (mul (symbol "s1") (symbol "s0")) (symbol "s2")
    = Some 2%nat.
Proof. repeat split; vm_compute; reflexivity. Qed.

(** C1 (as stated) fails: on [[2; 3]] with targets 6 and 1 the whole
    list is a prefix of product 6, the suffix after it is empty and has
    product 1, and 6 * 1 is the product of the list; the loop stops
    before [len(sizes)] and the result is [None]. *)
Lemma split_sizes_claim_counterexample :
  ¬ split_sizes_claim [2; 3] 6 1.
Proof.
  intros H. destruct (H eq_refl) as [Hsome _].
  destruct Hsome as (k & Hk & _).
  - exists 2%nat. split; [simpl; lia | split; reflexivity].
  - discriminate Hk.
Qed.

(** C8 (as amended).  [split_sizes([2,3,4], 6, 4)] returns 2: the prefix
    [[2, 3]] has product 6 and the suffix [[4]] has product 4. *)
Theorem split_sizes_example : split_sizes [2; 3; 4] 6 4 = Some 2%nat.
Proof. reflexivity. Qed.

(** C8 (as stated) fails: the result is not 1, because the prefix of
    length 1 is [[2]], whose product is not 6. *)
Lemma split_sizes_not_one :
  split_sizes [2; 3; 4] 6 4 ≠ Some 1%nat
  ∧ product (take 1 [2; 3; 4]) ≠ 6.
Proof. split; [discriminate | vm_compute; discriminate]. Qed.

End SplitSizesExamples.

(** ** [FixedLayout.default_strides] *)

Section DefaultStrides.
Import Triton Ir Spec.

Lemma suffix_products_length l :
  length (suffix_products l) = S (length l).
Proof. induction l; simpl; congruence. Qed.

Lemma suffix_products_lookup l (i : nat) :
  (i ≤ length l)%nat → suffix_products l !! i = Some (product (drop i l)).
Proof.
  revert i. induction l as [|x l IH]; intros i Hi; simpl in *.
  - by replace i with 0%nat by lia.
  - destruct i as [|i]; simpl.
    + rewrite product_cons. f_equal. f_equal.
      specialize (IH 0%nat ltac:(lia)).
      rewrite <- head_lookup in IH. by rewrite IH.
    + apply IH. lia.
Qed.

Lemma suffix_products_last l : last (suffix_products l) = Some 1.
Proof.
  induction l as [|x l IH]; [done|]. simpl.
  destruct (suffix_products l) eqn:E; [done|]. done.
Qed.

(** The loop of [default_strides] never raises, and builds the suffix
    products back to front. *)
Lemma default_strides_loop (l : list Z) :
  foldl (λ acc size,
           reversed_strides ← acc;
           prev ← get_last reversed_strides;
           mret (reversed_strides ++ [size * prev]))
        (Ok [1]) (reverse l)
  = Ok (reverse (suffix_products l)).
Proof.
  induction l as [|x l IH]; [done|].
  rewrite reverse_cons, foldl_snoc, IH. simpl.
  unfold get_last. rewrite last_reverse.
  pose proof (suffix_products_length l) as Hlen.
  destruct (suffix_products l) as [|h t]; [done|]. simpl.
  by rewrite !reverse_cons.
Qed.

Lemma default_strides_eq (sizes : list Z) :
  default_strides sizes =
  Ok (match sizes with [] => [] | _ :: l => suffix_products l end).
Proof.
  unfold default_strides. destruct sizes as [|s l]; [done|].
  rewrite decide_False by done. simpl drop.
  rewrite default_strides_loop. simpl. by rewrite reverse_involutive.
Qed.

(** C10.  [default_strides] always returns; the stride list has the
    length of the size list, its element at position [i] is the product
    of the sizes at positions [i+1] to the end, its last element (when
    there is one) is 1, and for the empty size list it is empty. *)
Theorem default_strides_row_major (sizes : list Z) :
  ∃ strides,
    default_strides sizes = Ok strides
    ∧ length strides = length sizes
    ∧ (∀ i : nat, (i < length sizes)%nat →
         strides !! i = Some (product (drop (S i) sizes)))
    ∧ (sizes ≠ [] → last strides = Some 1)
    ∧ (sizes = [] → strides = []).
Proof.
  rewrite default_strides_eq. eexists. split; [reflexivity|].
  destruct sizes as [|s l].
  - repeat split; simpl; try done. intros i Hi. lia.
  - repeat split; try done.
    + by rewrite suffix_products_length.
    + intros i Hi. simpl in *. apply suffix_products_lookup. lia.
    + intros _. apply suffix_products_last.
Qed.

(** The statement at the sizes [[2; 3; 4]]: the strides are
    [[12; 4; 1]]. *)
Lemma default_strides_row_major_witness :
  ∃ strides,
    default_strides [2; 3; 4] = Ok strides
    ∧ strides !! 0%nat = Some (product (drop 1 [2; 3; 4]))
    ∧ last strides = Some 1.
Proof.
  destruct (default_strides_row_major [2; 3; 4])
    as (strides & Heq & _ & Hi & Hlast & _).
  exists strides. split; [exact Heq|]. split.
  - apply (Hi 0%nat). simpl. lia.
  - apply Hlast. discriminate.
Defined.

End DefaultStrides.

(** ** [SizeVarAllocator] *)

Section Allocator.
Import Shapes Spec.

Lemma getitem_hit (val : Z) (var : Expr) (self : SizeVarAllocator) :
  val_to_var self !! val = Some var → getitem val self = (var, self).
Proof. intros H. unfold getitem. by rewrite H. Qed.

(** A lookup records what it returns. *)
Lemma getitem_recorded (val : Z) (self : SizeVarAllocator) :
  val_to_var (getitem val self).2 !! val = Some (getitem val self).1.
Proof.
  unfold getitem. destruct (val_to_var self !! val) eqn:E; simpl; [done|].
  apply lookup_insert_eq.
Qed.

(** A lookup never changes an entry of [val_to_var]. *)
Lemma getitem_preserves (val w : Z) (var : Expr) (self : SizeVarAllocator) :
  val_to_var self !! val = Some var →
  val_to_var (getitem w self).2 !! val = Some var.
Proof.
  intros H. unfold getitem.
  destruct (val_to_var self !! w) eqn:E; simpl; [done|].
  rewrite lookup_insert_ne; [done|]. intros ->. congruence.
Qed.

Lemma lookups_preserves (vals : list Z) (val : Z) (var : Expr)
  (self : SizeVarAllocator) :
  val_to_var self !! val = Some var →
  val_to_var (lookups vals self) !! val = Some var.
Proof.
  revert self. induction vals as [|w vals IH]; intros self H; [done|].
  simpl. apply IH. by apply getitem_preserves.
Qed.

(** C6.  Once a value has been looked up, every later lookup of it --
    directly after, or after any other lookups -- returns the expression
    the first one returned and leaves the allocator unchanged; and in an
    allocator created with constant folding, after any lookups, the
    values 0 and 1 are the constants 0 and 1, and looking them up mints
    nothing. *)
Theorem getitem_idempotent :
  (∀ (self : SizeVarAllocator) (val : Z) (vals : list Z),
     let self' := lookups vals (getitem val self).2 in
     getitem val self' = ((getitem val self).1, self'))
  ∧ (∀ (prefix : string) (vals : list Z),
       let self := lookups vals (init prefix true) in
       getitem 0 self = (Integer 0, self)
       ∧ getitem 1 self = (Integer 1, self)).
Proof.
  split.
  - intros self val vals self'.
    apply getitem_hit, lookups_preserves, getitem_recorded.
  - intros prefix vals self. split.
    + apply getitem_hit, lookups_preserves. done.
    + apply getitem_hit, lookups_preserves. done.
Qed.

(** *** [codegen] *)

Lemma foldl_fmap_fun {A B C} (f : A → B → A) (g : C → B) (a : A)
  (l : list C) :
  foldl f a (g <$> l) = foldl (λ a x, f a (g x)) a l.
Proof. revert a. induction l as [|x l IH]; intros a; simpl; [done|]. apply IH. Qed.

Lemma foldl_ext_fun {A B} (f g : A → B → A) (a : A) (l : list B) :
  (∀ a x, f a x = g a x) → foldl f a l = foldl g a l.
Proof.
  intros H. revert a. induction l as [|x l IH]; intros a; simpl; [done|].
  by rewrite H, IH.
Qed.

(** Each scan is a single pass over its candidates. *)
Lemma scan_candidates (wh : string) (get : InputBuffer → list Expr)
  (graph_inputs : list (string * InputBuffer)) (st : scan_state) :
  scan wh get graph_inputs st
  = foldl step st (candidates wh get graph_inputs).
Proof.
  unfold scan, candidates. revert st.
  induction graph_inputs as [|[name value] gi IH]; intros st; [done|].
  simpl. rewrite foldl_app, IH. f_equal.
  rewrite foldl_fmap_fun. apply foldl_ext_fun.
  intros [needed code] [d sh]. unfold scan_dim, step, render. simpl.
  by destruct (decide (str sh ∈ needed)).
Qed.

(** A pass binds the candidates selected by [bound], in order. *)
Lemma foldl_step_bound (cands : list candidate) (needed : gset string)
  (code : list string) :
  foldl step (needed, code) cands
  = (needed ∖ list_to_set (shape <$> cands),
     code ++ (render <$> bound needed cands)).
Proof.
  revert needed code.
  induction cands as [|c cands IH]; intros needed code; simpl.
  - f_equal; [set_solver | by rewrite app_nil_r].
  - unfold step at 2. simpl. destruct (decide (shape c ∈ needed)).
    + rewrite IH. f_equal; [set_solver|]. by rewrite <- app_assoc.
    + rewrite IH. f_equal. set_solver.
Qed.

Lemma bound_first_match (cands : list candidate) (needed : gset string)
  (c : candidate) :
  c ∈ bound needed cands ↔
  shape c ∈ needed ∧ ∃ i, first_match cands i c.
Proof.
  revert needed. induction cands as [|c0 cands IH]; intros needed; simpl.
  - split; [by intros ?%elem_of_nil|]. intros (_ & i & Hi & _). done.
  - destruct (decide (shape c0 ∈ needed)) as [Hin|Hnin].
    + rewrite elem_of_cons, IH. split.
      * intros [->|(Hc & i & Hi & Hfirst)].
        { split; [done|]. exists 0%nat. split; [done|]. intros; lia. }
        split; [set_solver|]. exists (S i). split; [done|].
        intros [|j] c' Hj Hc'; simpl in Hc'.
        { injection Hc' as <-. set_solver. }
        apply (Hfirst j); [lia | done].
      * intros (Hc & [|i] & Hi & Hfirst); simpl in Hi.
        { left. congruence. }
        right. split.
        { assert (shape c0 ≠ shape c) by (apply (Hfirst 0%nat); [lia | done]).
          set_solver. }
        exists i. split; [done|]. intros j c' Hj Hc'.
        apply (Hfirst (S j)); [lia | done].
    + rewrite IH. split.
      * intros (Hc & i & Hi & Hfirst). split; [done|].
        exists (S i). split; [done|].
        intros [|j] c' Hj Hc'; simpl in Hc'.
        { injection Hc' as <-. intros Heq. by rewrite Heq in Hnin. }
        apply (Hfirst j); [lia | done].
      * intros (Hc & [|i] & Hi & Hfirst); simpl in Hi.
        { injection Hi as ->. done. }
        split; [done|]. exists i. split; [done|]. intros j c' Hj Hc'.
        apply (Hfirst (S j)); [lia | done].
Qed.

Lemma bound_sublist (cands : list candidate) (needed : gset string) :
  sublist (bound needed cands) cands.
Proof.
  revert needed. induction cands as [|c cands IH]; intros needed; simpl.
  - constructor.
  - destruct (decide (shape c ∈ needed)); constructor; apply IH.
Qed.

Lemma bound_NoDup (cands : list candidate) (needed : gset string) :
  NoDup (shape <$> bound needed cands).
Proof.
  revert needed. induction cands as [|c cands IH]; intros needed; simpl.
  - constructor.
  - destruct (decide (shape c ∈ needed)); [|apply IH].
    simpl. constructor; [|apply IH].
    intros (c' & Heq & Hc')%list_elem_of_fmap.
    apply bound_first_match in Hc' as [Hc' _]. set_solver.
Qed.

(** The candidates of a scan, written out. *)
Lemma candidates_imap (wh : string) (get : InputBuffer → list Expr)
  (graph_inputs : list (string * InputBuffer)) :
  candidates wh get graph_inputs
  = '(name, value) ← graph_inputs;
    imap (λ d e, Candidate (str e) name wh d) (get value).
Proof.
  unfold candidates, enumerate.
  induction graph_inputs as [|[name value] gi IH]; [done|].
  rewrite !bind_cons, IH. f_equal. by rewrite fmap_imap.
Qed.

(** C7.  [codegen] scans the candidates of the sizes of all inputs and
    then those of their strides, in order; the lines it adds to [code]
    are the bindings [var = input.size(dim)] or [var = input.stride(dim)]
    of a list [bs] of candidates, kept in scan order, with at most one
    candidate per variable; a candidate is in [bs] exactly when its shape
    is the name of a symbolic variable and it is the first candidate of
    the scan with that shape; and the final assertion fails exactly when
    some symbolic variable is the shape of no candidate at all --
    otherwise the call returns. *)
Theorem codegen_binds_first_match (self : SizeVarAllocator)
  (code : list string) (graph_inputs : list (string * InputBuffer)) :
  let sizes :=
    '(name, value) ← graph_inputs;
    imap (λ d e, Candidate (str e) name "size" d) (get_size value) in
  let strides :=
    '(name, value) ← graph_inputs;
    imap (λ d e, Candidate (str e) name "stride" d) (get_stride value) in
  let cands := sizes ++ strides in
  ∃ bs : list candidate,
    (codegen self code graph_inputs).1
    = code ++ ((λ c, shape c +:+ " = " +:+ input c +:+ "." +:+ what c
                      +:+ "(" +:+ pretty (dim c) +:+ ")") <$> bs)
    ∧ sublist bs cands
    ∧ NoDup (shape <$> bs)
    ∧ (∀ c, c ∈ bs ↔
            shape c ∈ symbolic_vars self ∧ ∃ i, first_match cands i c)
    ∧ ((codegen self code graph_inputs).2 = Raise AssertionError ↔
       ∃ v, v ∈ symbolic_vars self ∧ ∀ c, c ∈ cands → shape c ≠ v)
    ∧ ((codegen self code graph_inputs).2 = Ok tt ↔
       ∀ v, v ∈ symbolic_vars self → ∃ c, c ∈ cands ∧ shape c = v).
Proof.
  intros sizes strides cands.
  assert (Hcands : cands = all_candidates graph_inputs).
  { unfold cands, sizes, strides, all_candidates.
    by rewrite !candidates_imap. }
  rewrite Hcands. clear Hcands sizes strides cands.
  set (cands := all_candidates graph_inputs).
  exists (bound (symbolic_vars self) cands).
  change (λ c, shape c +:+ " = " +:+ input c +:+ "." +:+ what c
               +:+ "(" +:+ pretty (dim c) +:+ ")") with render.
  unfold codegen. fold (symbolic_vars self).
  rewrite !scan_candidates, <- foldl_app. fold (all_candidates graph_inputs).
  fold cands. rewrite foldl_step_bound. simpl.
  split; [done|]. split; [apply bound_sublist|].
  split; [apply bound_NoDup|]. split; [apply bound_first_match|].
  assert (Hempty :
    symbolic_vars self ∖ list_to_set (shape <$> cands) = (∅ : gset string) ↔
    ∀ v, v ∈ symbolic_vars self → ∃ c, c ∈ cands ∧ shape c = v).
  { split.
    - intros He v Hv.
      destruct (decide (v ∈ shape <$> cands)) as [Hin|Hnin].
      + apply list_elem_of_fmap in Hin as (c & -> & Hc). eauto.
      + exfalso. apply (not_elem_of_empty (C := gset string) v).
        rewrite <- He. apply elem_of_difference. split; [done|].
        by rewrite elem_of_list_to_set.
    - intros Hall. apply leibniz_equiv, elem_of_equiv_empty.
      intros v [Hv Hnin]%elem_of_difference.
      destruct (Hall v Hv) as (c & Hc & <-). apply Hnin.
      rewrite elem_of_list_to_set. apply list_elem_of_fmap. eauto. }
  split.
  - case_decide as Hd.
    + split; [discriminate|]. intros (v & Hv & Hno). exfalso.
      destruct (proj1 Hempty Hd v Hv) as (c & Hc & Heq). by apply (Hno c).
    + split; [|done]. intros _.
      destruct (decide (∃ v, v ∈ symbolic_vars self
                             ∧ v ∉ shape <$> cands)) as [Hex|Hnex].
      * destruct Hex as (v & Hv & Hnin). exists v. split; [done|].
        intros c Hc <-. apply Hnin. apply list_elem_of_fmap. eauto.
      * exfalso. apply Hd, Hempty. intros v Hv.
        destruct (decide (v ∈ shape <$> cands)) as [Hin|Hnin].
        { apply list_elem_of_fmap in Hin as (c & -> & Hc). eauto. }
        exfalso. apply Hnex. eauto.
  - case_decide as Hd.
    + split; [|done]. intros _. by apply Hempty.
    + split; [discriminate|]. intros Hall. exfalso. by apply Hd, Hempty.
Qed.

End Allocator.

(** ** [TritonKernel]: indexing, masks and reductions *)

Section KernelProps.
Import Triton Spec.
Context {E Args : Type} `{!SymPy E, !Common E Args}.
Implicit Types (k : TritonKernel E Args) (index : E).

(** Unfolding of the monadic plumbing. *)
Ltac run :=
  unfold mbind, method_bind, mret, method_ret, gets, modify, assert, raise,
    rename_indexing_m, args_input_m, args_output_m; simpl.

(** [indexing] in closed form: the kernel only changes through
    [rename_indexing]; the call raises exactly when a reduction part
    shows up outside a reduction. *)
Lemma indexing_eq k index :
  let '(index', a) := rename_indexing index (args k) in
  let offset := subs_zero (iter_vars k ++ reduction_vars k) index' in
  let base_part := minus (subs_zero (reduction_vars k) index') offset in
  let reduction_part := minus (subs_zero (iter_vars k) index') offset in
  indexing index k =
  (set_args a k,
   if inside_reduction k || is_zero reduction_part
   then Ok (join " + " (address (inside_reduction k) offset base_part
                                reduction_part))
   else Raise AssertionError).
Proof.
  destruct (rename_indexing index (args k)) as [index' a] eqn:Hren.
  unfold indexing. run. rewrite Hren. simpl.
  unfold offset_of, base_part_of, reduction_part_of, offset_of. simpl.
  set (offset := subs_zero (iter_vars k ++ reduction_vars k) index').
  set (base_part := minus (subs_zero (reduction_vars k) index') offset).
  set (reduction_part := minus (subs_zero (iter_vars k) index') offset).
  unfold address, part_or_zeros, column, row.
  destruct (inside_reduction k) eqn:Hin; simpl.
  - destruct (is_zero offset), (is_zero base_part),
      (is_zero reduction_part); simpl; reflexivity.
  - destruct (is_zero offset), (is_zero base_part),
      (is_zero reduction_part); simpl; reflexivity.
Qed.

Lemma indexing_state k index :
  (indexing index k).1 = set_args (rename_indexing index (args k)).2 k.
Proof.
  pose proof (indexing_eq k index) as H.
  destruct (rename_indexing index (args k)) as [index' a].
  by rewrite H.
Qed.

(** C2.  [indexing] works on the renamed index: [offset] is that index
    with all iteration and reduction variables replaced by 0,
    [base_part] is it with the reduction variables replaced by 0, minus
    [offset], and [reduction_part] is it with the iteration variables
    replaced by 0, minus [offset].  Whenever the call returns -- inside a
    reduction, or with a zero reduction part -- the address is the
    [" + "]-joined list of: the offset if it is not zero, the base part
    or a [BLOCK_SIZE] block of zeros, and, inside a reduction only, the
    reduction part or a [REDUCTION_SIZE] block of zeros, the base
    component then being reshaped to a [(BLOCK_SIZE, 1)] column and the
    reduction component to a [(1, REDUCTION_SIZE)] row. *)
Theorem indexing_address k index :
  let index' := (rename_indexing index (args k)).1 in
  let offset := subs_zero (iter_vars k ++ reduction_vars k) index' in
  let base_part := minus (subs_zero (reduction_vars k) index') offset in
  let reduction_part := minus (subs_zero (iter_vars k) index') offset in
  inside_reduction k = true ∨ is_zero reduction_part = true →
  (indexing index k).2 =
  Ok (join " + " (address (inside_reduction k) offset base_part
                          reduction_part)).
Proof.
  pose proof (indexing_eq k index) as H.
  destruct (rename_indexing index (args k)) as [index' a]. simpl.
  intros Hret. rewrite H. simpl.
  destruct Hret as [-> | ->]; [done|]. by rewrite orb_true_r.
Qed.

(** C3.  Outside a reduction, [indexing] fails its assertion when the
    reduction part of the index is not zero, and returns an address when
    it is zero. *)
Theorem indexing_rejects_reduction_part k index :
  let index' := (rename_indexing index (args k)).1 in
  let offset := subs_zero (iter_vars k ++ reduction_vars k) index' in
  let reduction_part := minus (subs_zero (iter_vars k) index') offset in
  inside_reduction k = false →
  (is_zero reduction_part = false →
   (indexing index k).2 = Raise AssertionError)
  ∧ (is_zero reduction_part = true →
     ∃ addr, (indexing index k).2 = Ok addr).
Proof.
  pose proof (indexing_eq k index) as H.
  destruct (rename_indexing index (args k)) as [index' a]. simpl.
  intros Hout. rewrite H, Hout. simpl. split.
  - by intros ->.
  - intros ->. eauto.
Qed.

(** *** The cache *)

Lemma cse_generate_cases (buf : buffer) (expr : string) k :
  (∃ var, cache (cse k) !! expr = Some var
          ∧ cse_generate buf expr k = (k, Ok var))
  ∨ (cache (cse k) !! expr = None
     ∧ cse_generate buf expr k =
       (set_cse {| cache := <[expr := newvar (iter_buffer_ids (cse k))]>
                              (cache (cse k));
                   iter_buffer_ids := S (iter_buffer_ids (cse k)) |}
                (writeline buf
                   (newvar (iter_buffer_ids (cse k)) +:+ " = " +:+ expr) k),
        Ok (newvar (iter_buffer_ids (cse k))))).
Proof.
  unfold cse_generate. destruct (cache (cse k) !! expr) eqn:Hc; eauto.
Qed.

(** [cse.generate] always returns a handle, which the cache then holds. *)
Lemma cse_generate_cached (buf : buffer) (expr : string) k :
  ∃ var, (cse_generate buf expr k).2 = Ok var
         ∧ cache (cse (cse_generate buf expr k).1) !! expr = Some var.
Proof.
  destruct (cse_generate_cases buf expr k) as [(var & Hc & ->)|[Hc ->]];
    simpl; eexists; split; try reflexivity; [done|].
  apply lookup_insert_eq.
Qed.

(** It never changes an entry of the cache. *)
Lemma cse_generate_preserves (buf : buffer) (expr expr' var : string) k :
  cache (cse k) !! expr' = Some var →
  cache (cse (cse_generate buf expr k).1) !! expr' = Some var.
Proof.
  intros H.
  destruct (cse_generate_cases buf expr k) as [(v & Hc & ->)|[Hc ->]];
    simpl; [done|].
  rewrite lookup_insert_ne; [done|]. intros ->. congruence.
Qed.

(** *** [mask], [load] and [store] *)

(** [store] in closed form. *)
Lemma store_eq k (name : string) index (value : string) :
  let '(var, a1) := args_output name (args k) in
  let '(index', a2) := rename_indexing index a1 in
  let offset := subs_zero (iter_vars k ++ reduction_vars k) index' in
  let base_part := minus (subs_zero (reduction_vars k) index') offset in
  let reduction_part := minus (subs_zero (iter_vars k) index') offset in
  store name index value k
  = if inside_reduction k || is_zero reduction_part
    then (writeline Stores
            (store_line var
               (join " + " (address (inside_reduction k) offset base_part
                                    reduction_part))
               value (mask true k))
            (set_args a2 k), Ok tt)
    else (set_args a2 k, Raise AssertionError).
Proof.
  destruct (args_output name (args k)) as [var a1] eqn:Hout.
  destruct (rename_indexing index a1) as [index' a2] eqn:Hren.
  unfold store. run. rewrite Hout. simpl.
  pose proof (indexing_eq (set_args a1 k) index) as H. simpl in H.
  rewrite Hren in H. rewrite H. clear H.
  by destruct (inside_reduction k || is_zero _).
Qed.

(** [load] and [store] after the call of [indexing]: the address goes
    into the text with the mask of the kernel's mode; a rejected index
    ends the call. *)
Lemma load_indexing k (name : string) index :
  load name index k
  = match (indexing index (set_args (args_input name (args k)).2 k)).2 with
    | Ok addr =>
        cse_generate Loads
          (load_line (args_input name (args k)).1 addr (mask true k))
          (indexing index (set_args (args_input name (args k)).2 k)).1
    | Raise e =>
        ((indexing index (set_args (args_input name (args k)).2 k)).1,
         Raise e)
    end.
Proof.
  unfold load. run.
  destruct (args_input name (args k)) as [var a1]. simpl.
  pose proof (indexing_state (set_args a1 k) index) as Hst.
  destruct (indexing index (set_args a1 k)) as [k2 [addr|e]]; simpl in *;
    [|done].
  by subst k2.
Qed.

Lemma store_indexing k (name : string) index (value : string) :
  store name index value k
  = match (indexing index (set_args (args_output name (args k)).2 k)).2 with
    | Ok addr =>
        (writeline Stores
           (store_line (args_output name (args k)).1 addr value
              (mask true k))
           (indexing index (set_args (args_output name (args k)).2 k)).1,
         Ok tt)
    | Raise e =>
        ((indexing index (set_args (args_output name (args k)).2 k)).1,
         Raise e)
    end.
Proof.
  unfold store. run.
  destruct (args_output name (args k)) as [var a1]. simpl.
  pose proof (indexing_state (set_args a1 k) index) as Hst.
  destruct (indexing index (set_args a1 k)) as [k2 [addr|e]]; simpl in *;
    [|done].
  by subst k2.
Qed.

(** [cse.generate], exactly: the kernel is unchanged when the expression
    is cached, and has one more line and one more cache entry when it is
    not. *)
Lemma cse_generate_exact (buf : buffer) (expr : string) k :
  ∃ var,
    cache (cse (cse_generate buf expr k).1) !! expr = Some var
    ∧ cse_generate buf expr k
      = (match cache (cse k) !! expr with
         | Some _ => k
         | None =>
             set_cse {| cache := <[expr := var]> (cache (cse k));
                        iter_buffer_ids := S (iter_buffer_ids (cse k)) |}
               (writeline buf (var +:+ " = " +:+ expr) k)
         end, Ok var).
Proof.
  destruct (cse_generate_cases buf expr k) as [(var & Hc & Heq)|[Hc Heq]];
    rewrite Heq, Hc; simpl.
  - by exists var.
  - eexists. split; [apply lookup_insert_eq | done].
Qed.

(** [cse.generate] into the compute buffer returns a handle and touches
    neither the other buffers nor the rest of the kernel. *)
Lemma cse_generate_compute_frame (expr : string) k :
  ∃ var k',
    cse_generate Compute expr k = (k', Ok var)
    ∧ cache (cse k') !! expr = Some var
    ∧ args k' = args k ∧ loads k' = loads k ∧ stores k' = stores k
    ∧ iter_vars k' = iter_vars k ∧ reduction_vars k' = reduction_vars k
    ∧ inside_reduction k' = inside_reduction k
    ∧ (∀ e v, cache (cse k) !! e = Some v → cache (cse k') !! e = Some v)
    ∧ ∃ lines, compute k' = compute k ++ lines
               ∧ (cache (cse k) !! expr = None →
                  lines = [var +:+ " = " +:+ expr]).
Proof.
  destruct (cse_generate_cases Compute expr k) as [(var & Hc & ->)|[Hc ->]].
  - exists var, k. repeat split; try done. exists [].
    split; [by rewrite app_nil_r | congruence].
  - eexists _, _. split; [done|]. simpl. repeat split; try done.
    + apply lookup_insert_eq.
    + intros e v He. rewrite lookup_insert_ne; [done|]. congruence.
    + eexists. split; done.
Qed.

(** C4 (as amended).  The text of a load or a store does not depend on
    [NEED_MASK], which is a parameter of the emitted kernel and not of
    the kernel object.  With [M] standing for [mask=mask_reduction] inside
    a reduction and for [mask=mask] otherwise: a [load] whose index is
    accepted returns the handle of the text [tl.load(var + addr, M)] and
    writes the assignment of that text to the load buffer when the text
    was not cached; a [store] whose index is accepted writes the line
    [tl.store(var + addr, value, M)]; a load or store whose index is
    rejected raises and writes nothing.  The prologue binds the mask
    variables these lines name in both branches of its test of
    [NEED_MASK]: to the bounds test, and to [None]. *)
Theorem load_store_pass_mask k (name : string) index (value : string) :
  let msk : string :=
    if inside_reduction k then "mask=mask_reduction" else "mask=mask" in
  let inp := args_input name (args k) in
  let outp := args_output name (args k) in
  let kl := (load name index k).1 in
  let ks := (store name index value k).1 in
  (∀ addr, (indexing index (set_args inp.2 k)).2 = Ok addr →
     let text :=
       "tl.load(" +:+ inp.1 +:+ " + " +:+ addr +:+ ", " +:+ msk +:+ ")" in
     ∃ h, (load name index k).2 = Ok h
          ∧ cache (cse kl) !! text = Some h
          ∧ loads kl
            = loads k ++ match cache (cse k) !! text with
                         | Some _ => []
                         | None => [h +:+ " = " +:+ text]
                         end)
  ∧ (∀ e, (indexing index (set_args inp.2 k)).2 = Raise e →
       (load name index k).2 = Raise e ∧ loads kl = loads k)
  ∧ (∀ addr, (indexing index (set_args outp.2 k)).2 = Ok addr →
       (store name index value k).2 = Ok tt
       ∧ stores ks
         = stores k ++ ["tl.store(" +:+ outp.1 +:+ " + " +:+ addr +:+ ", "
                        +:+ value +:+ ", " +:+ msk +:+ ")"])
  ∧ (∀ e, (indexing index (set_args outp.2 k)).2 = Raise e →
       (store name index value k).2 = Raise e ∧ stores ks = stores k)
  ∧ codegen_kernel_mask k
    = if inside_reduction k then
        [ "reduction0 = tl.arange(0, REDUCTION_SIZE)";
          "if NEED_MASK:";
          "    mask = indices0 < numel";
          "    mask_reduction = (tl.reshape(mask, (BLOCK_SIZE, 1)) &";
          "                      tl.reshape(reduction0 < reduction_numel, (1, REDUCTION_SIZE)))";
          "else:";
          "    mask = None";
          "    mask_reduction = None" ]
      else
        [ "if NEED_MASK:";
          "    mask = indices0 < numel";
          "else:";
          "    mask = None" ].
Proof.
  intros msk inp outp kl ks.
  assert (Hmsk : mask true k = msk).
  { unfold mask, msk. by destruct (inside_reduction k). }
  split; [|split; [|split; [|split; [|done]]]].
  - intros addr Haddr text. unfold kl. rewrite load_indexing.
    fold inp. rewrite Haddr, Hmsk.
    change (load_line inp.1 addr msk) with text.
    pose proof (indexing_state (set_args inp.2 k) index) as Hst.
    destruct (cse_generate_exact Loads text
                (indexing index (set_args inp.2 k)).1) as (h & Hc & Heq).
    rewrite Heq in Hc |- *. rewrite Hst in Hc |- *. simpl in Hc |- *.
    exists h. split; [done|]. split; [done|].
    destruct (cache (cse k) !! text); simpl; [by rewrite app_nil_r | done].
  - intros e He. unfold kl. rewrite load_indexing. fold inp. rewrite He.
    split; [done|]. simpl. by rewrite indexing_state.
  - intros addr Haddr. unfold ks. rewrite store_indexing.
    fold outp. rewrite Haddr, Hmsk. split; [done|]. simpl.
    by rewrite indexing_state.
  - intros e He. unfold ks. rewrite store_indexing. fold outp. rewrite He.
    split; [done|]. simpl. by rewrite indexing_state.
Qed.

(** *** [reduction] *)

(** For the supported types, the text of the reduction is never that of
    the masked value. *)
Lemma reduce_line_ne_where_line (rt dflt value res : string) :
  reduction_default rt = Ok dflt →
  reduce_line rt res ≠ where_line value dflt.
Proof.
  unfold reduction_default, reduce_line, where_line.
  repeat case_decide; subst; intros [= <-]; simpl; discriminate.
Qed.

(** The dictionary [default] on its three keys. *)
Lemma reduction_default_supported (rt dflt : string) :
  (rt, dflt) ∈ [("sum", "0"); ("max", "float('-inf')");
                ("min", "float('inf')")] →
  reduction_default rt = Ok dflt.
Proof.
  intros Hrt.
  repeat (apply elem_of_cons in Hrt as [[= -> ->]|Hrt]; [done|]).
  by apply elem_of_nil in Hrt.
Qed.

(** [reduction] of a supported type in closed form: the two compute
    expressions go through the cache, whatever the mode; then the mode is
    asserted, and the store runs outside reduction mode. *)
Lemma reduction_eq k (name rt : string) index (value dflt : string) :
  reduction_default rt = Ok dflt →
  ∃ (res res2 : string) (k2 : TritonKernel E Args),
    cache (cse k2) !! where_line value dflt = Some res
    ∧ cache (cse k2) !! reduce_line rt res = Some res2
    ∧ compute k2
      = compute k
        ++ match cache (cse k) !! where_line value dflt with
           | Some _ => []
           | None => [res +:+ " = " +:+ where_line value dflt]
           end
        ++ match cache (cse k) !! reduce_line rt res with
           | Some _ => []
           | None => [res2 +:+ " = " +:+ reduce_line rt res]
           end
    ∧ args k2 = args k ∧ loads k2 = loads k ∧ stores k2 = stores k
    ∧ iter_vars k2 = iter_vars k ∧ reduction_vars k2 = reduction_vars k
    ∧ inside_reduction k2 = inside_reduction k
    ∧ reduction name rt index value k
      = if inside_reduction k then
          match store name index res2 (set_inside_reduction false k2) with
          | (k3, Ok _) => (set_inside_reduction true k3, Ok tt)
          | (k3, Raise e) => (k3, Raise e)
          end
        else (k2, Raise AssertionError).
Proof.
  intros Hd. unfold reduction, ops_store. rewrite Hd. run.
  set (w := where_line value dflt).
  destruct (cse_generate_exact Compute w k) as (res & Hc1 & Heq1).
  rewrite Heq1 in Hc1 |- *. simpl in Hc1 |- *.
  set (k1 := match cache (cse k) !! w with Some _ => k | None => _ end) in *.
  set (r := reduce_line rt res).
  assert (Hne : r ≠ w) by by apply reduce_line_ne_where_line.
  assert (Hr : cache (cse k1) !! r = cache (cse k) !! r).
  { unfold k1. destruct (cache (cse k) !! w); simpl; [done|].
    by rewrite lookup_insert_ne. }
  destruct (cse_generate_exact Compute r k1) as (res2 & Hc2 & Heq2).
  rewrite Heq2 in Hc2 |- *. simpl in Hc2 |- *.
  set (k2 := match cache (cse k1) !! r with Some _ => k1 | None => _ end)
    in *.
  assert (Hw2 : cache (cse k2) !! w = Some res).
  { unfold k2. destruct (cache (cse k1) !! r); simpl; [done|].
    by rewrite lookup_insert_ne. }
  assert (Hframe1 :
    args k1 = args k ∧ loads k1 = loads k ∧ stores k1 = stores k
    ∧ iter_vars k1 = iter_vars k ∧ reduction_vars k1 = reduction_vars k
    ∧ inside_reduction k1 = inside_reduction k
    ∧ compute k1
      = compute k ++ match cache (cse k) !! w with
                     | Some _ => []
                     | None => [res +:+ " = " +:+ w]
                     end).
  { unfold k1. destruct (cache (cse k) !! w); simpl;
      rewrite ?app_nil_r; done. }
  assert (Hframe2 :
    args k2 = args k1 ∧ loads k2 = loads k1 ∧ stores k2 = stores k1
    ∧ iter_vars k2 = iter_vars k1 ∧ reduction_vars k2 = reduction_vars k1
    ∧ inside_reduction k2 = inside_reduction k1
    ∧ compute k2
      = compute k1 ++ match cache (cse k1) !! r with
                      | Some _ => []
                      | None => [res2 +:+ " = " +:+ r]
                      end).
  { unfold k2. destruct (cache (cse k1) !! r); simpl;
      rewrite ?app_nil_r; done. }
  destruct Hframe1 as (Ha1 & Hl1 & Hs1 & Hi1 & Hv1 & Hin1 & Hcomp1).
  destruct Hframe2 as (Ha2 & Hl2 & Hs2 & Hi2 & Hv2 & Hin2 & Hcomp2).
  exists res, res2, k2.
  split; [done|]. split; [done|].
  split; [by rewrite Hcomp2, Hcomp1, Hr, app_assoc|].
  do 6 (split; [congruence|]).
  rewrite Hin2, Hin1. destruct (inside_reduction k); simpl; [|done].
  by destruct (store name index res2 (set_inside_reduction false k2))
    as [k3 [[]|e]].
Qed.

(** C5.  For a reduction type other than [sum], [max] and [min] the call
    raises [KeyError] and leaves the kernel as it was: nothing is
    emitted.  For [sum], [max] and [min], with the identity element 0,
    [float('-inf')] and [float('inf')]: the call first takes from the
    cache the value with the identity element substituted under
    [mask_reduction], then the reduction of that handle along axis 1,
    and the compute buffer grows by the assignments of exactly those of
    the two texts that were not cached, in this order.  The call returns
    exactly when the kernel is inside a reduction and the index of the
    result has no reduction part; it has then written one store line, of
    the reduced handle under the plain mask, and is inside the reduction
    again.  Otherwise it raises [AssertionError] and writes no store. *)
Theorem reduction_identity_or_error k (name rt : string) index
  (value : string) :
  (rt ∉ ["sum"; "max"; "min"] →
   reduction name rt index value k = (k, Raise KeyError))
  ∧ (∀ dflt : string,
       (rt, dflt) ∈ [("sum", "0"); ("max", "float('-inf')");
                     ("min", "float('inf')")] →
       let out := reduction name rt index value k in
       let w :=
         "tl.where(mask_reduction, " +:+ value +:+ ", " +:+ dflt
         +:+ ") if NEED_MASK else " +:+ value in
       let var := (args_output name (args k)).1 in
       let index' :=
         (rename_indexing index (args_output name (args k)).2).1 in
       let offset := subs_zero (iter_vars k ++ reduction_vars k) index' in
       let base_part :=
         minus (subs_zero (reduction_vars k) index') offset in
       let reduction_part :=
         minus (subs_zero (iter_vars k) index') offset in
       ∃ res res2 : string,
         let r := "tl." +:+ rt +:+ "(" +:+ res +:+ ", 1)" in
         cache (cse out.1) !! w = Some res
         ∧ cache (cse out.1) !! r = Some res2
         ∧ compute out.1
           = compute k
             ++ match cache (cse k) !! w with
                | Some _ => []
                | None => [res +:+ " = " +:+ w]
                end
             ++ match cache (cse k) !! r with
                | Some _ => []
                | None => [res2 +:+ " = " +:+ r]
                end
         ∧ (out.2 = Ok tt ↔
            inside_reduction k = true ∧ is_zero reduction_part = true)
         ∧ (out.2 = Ok tt →
            inside_reduction out.1 = true
            ∧ stores out.1
              = stores k
                ++ ["tl.store(" +:+ var +:+ " + "
                    +:+ join " + " (address false offset base_part
                                      reduction_part)
                    +:+ ", " +:+ res2 +:+ ", mask=mask)"])
         ∧ (out.2 ≠ Ok tt →
            out.2 = Raise AssertionError ∧ stores out.1 = stores k)).
Proof.
  split.
  - intros Hrt. unfold reduction, reduction_default.
    repeat case_decide; subst; try done; exfalso; apply Hrt; set_solver.
  - intros dflt Hrt out w var index' offset base_part reduction_part.
    pose proof (reduction_default_supported rt dflt Hrt) as Hd.
    destruct (reduction_eq k name rt index value dflt Hd)
      as (res & res2 & k2 & Hc1 & Hc2 & Hcomp & Ha & _ & Hs & Hi & Hv
          & Hin & Heq).
    exists res, res2. intros r.
    change (where_line value dflt) with w in Hc1, Hcomp.
    change (reduce_line rt res) with r in Hc2, Hcomp.
    unfold out. rewrite Heq. clear Heq out.
    destruct (inside_reduction k) eqn:Hk.
    + pose proof (store_eq (set_inside_reduction false k2) name index res2)
        as Hst.
      simpl in Hst. rewrite Ha, Hi, Hv in Hst.
      unfold var, reduction_part, base_part, offset, index'.
      destruct (args_output name (args k)) as [var0 a1]. simpl.
      destruct (rename_indexing index a1) as [index0 a2]. simpl.
      rewrite Hst. clear Hst.
      destruct (is_zero (minus (subs_zero (iter_vars k) index0) _)) eqn:Hz;
        simpl.
      * split; [done|]. split; [done|]. split; [done|].
        split; [done|]. split; [|done]. intros _.
        split; [done|]. by rewrite Hs.
      * split; [done|]. split; [done|]. split; [done|].
        split; [split; [done | by intros [_ ?]]|].
        split; [done|]. intros _. split; [done|]. by rewrite Hs.
    + simpl. split; [done|]. split; [done|]. split; [done|].
      split; [split; [done | by intros [? _]]|].
      split; [done|]. by intros _.
Qed.

End KernelProps.

(** *** The kernel on concrete indices *)

Section KernelExamples.
Import Triton Spec.

(** The statement of C2 at the index [i0*s1 + r0] inside a reduction:
    no offset, a column for the base part, a row for the reduction
    part. *)
Lemma indexing_address_witness :
  (indexing (Add (Mul (Symbol "i0") (Symbol "s1")) (Symbol "r0"))
            (Plain.kernel true)).2
  = Ok "tl.reshape((i0)*(s1), (BLOCK_SIZE, 1)) + tl.reshape(r0, (1, REDUCTION_SIZE))".
Proof.
  exact (indexing_address (Plain.kernel true)
           (Add (Mul (Symbol "i0") (Symbol "s1")) (Symbol "r0"))
           (or_introl eq_refl)).
Defined.

Example indexing_pointwise :
  (indexing (Add (Symbol "i0") (Integer 7)) (Plain.kernel false)).2
  = Ok "7 + i0".
Proof. reflexivity. Qed.

Example indexing_broadcast :
  (indexing (Symbol "r0") (Plain.kernel true)).2
  = Ok "tl.reshape(tl.zeros((BLOCK_SIZE, ), tl.int32), (BLOCK_SIZE, 1)) + tl.reshape(r0, (1, REDUCTION_SIZE))".
Proof. reflexivity. Qed.

(** The statement of C3 at the indices [r0] (rejected) and [i0]
    (accepted), outside a reduction. *)
Lemma indexing_rejects_reduction_part_witness :
  (indexing (Symbol "r0") (Plain.kernel false)).2 = Raise AssertionError
  ∧ ∃ addr, (indexing (Symbol "i0") (Plain.kernel false)).2 = Ok addr.
Proof.
  split.
  - apply (indexing_rejects_reduction_part (Plain.kernel false)
             (Symbol "r0")); reflexivity.
  - apply (indexing_rejects_reduction_part (Plain.kernel false)
             (Symbol "i0")); reflexivity.
Defined.

(** C4 (as stated) fails: the kernel text does not depend on
    [NEED_MASK], so the lines below are also those of a kernel launched
    with [NEED_MASK] false, and both name the mask variable. *)
Lemma load_store_reference_mask :
  let k1 := (load "x" (Symbol "i0") (Plain.kernel false)).1 in
  let k2 := (store "y" (Symbol "i0") "tmp0" (Plain.kernel false)).1 in
  loads k1 = ["tmp0 = tl.load(x + i0, mask=mask)"]
  ∧ stores k2 = ["tl.store(y + i0, tmp0, mask=mask)"]
  ∧ ¬ never_references_mask (loads k1)
  ∧ ¬ never_references_mask (stores k2).
Proof.
  simpl. split; [reflexivity|]. split; [reflexivity|]. split.
  - intros H.
    specialize (H "tmp0 = tl.load(x + i0, mask=mask)").
    discriminate H. vm_compute. apply list_elem_of_here.
  - intros H.
    specialize (H "tl.store(y + i0, tmp0, mask=mask)").
    discriminate H. vm_compute. apply list_elem_of_here.
Qed.

(** The amended statement of C4 at a load of [x[i0 + r0]] inside a
    reduction and at a store of [tmp0] to [y[i0]] outside. *)
Lemma load_store_pass_mask_witness :
  (∃ h, (load "x" (Add (Symbol "i0") (Symbol "r0")) (Plain.kernel true)).2
        = Ok h
        ∧ loads (load "x" (Add (Symbol "i0") (Symbol "r0"))
                   (Plain.kernel true)).1
          = [h +:+ " = tl.load(x + tl.reshape(i0, (BLOCK_SIZE, 1)) + tl.reshape(r0, (1, REDUCTION_SIZE)), mask=mask_reduction)"])
  ∧ (store "y" (Symbol "i0") "tmp0" (Plain.kernel false)).2 = Ok tt
  ∧ stores (store "y" (Symbol "i0") "tmp0" (Plain.kernel false)).1
    = ["tl.store(y + i0, tmp0, mask=mask)"].
Proof.
  split.
  - destruct (load_store_pass_mask (Plain.kernel true) "x"
                (Add (Symbol "i0") (Symbol "r0")) "tmp0") as (Hload & _).
    destruct (Hload _ eq_refl) as (h & Hh & _ & Hl).
    exists h. split; [exact Hh | exact Hl].
  - destruct (load_store_pass_mask (Plain.kernel false) "y" (Symbol "i0")
                "tmp0") as (_ & _ & Hstore & _).
    exact (Hstore "i0" eq_refl).
Defined.

(** The statement of C5 at a [max] of [tmp7] stored to [out[i0]], and at
    the unsupported reduction type [prod]. *)
Lemma reduction_identity_or_error_witness :
  reduction "out" "prod" (Symbol "i0") "tmp7" (Plain.kernel true)
  = (Plain.kernel true, Raise KeyError)
  ∧ ∃ res res2 : string,
      let out := reduction "out" "max" (Symbol "i0") "tmp7"
                   (Plain.kernel true) in
      compute out.1
      = [res +:+ " = tl.where(mask_reduction, tmp7, float('-inf')) if NEED_MASK else tmp7";
         res2 +:+ " = tl.max(" +:+ res +:+ ", 1)"]
      ∧ out.2 = Ok tt
      ∧ stores out.1 = ["tl.store(out + i0, " +:+ res2 +:+ ", mask=mask)"].
Proof.
  split.
  - apply (reduction_identity_or_error (Plain.kernel true) "out" "prod"
             (Symbol "i0") "tmp7").
    intros H. repeat (apply elem_of_cons in H as [H|H]; [discriminate|]).
    by apply elem_of_nil in H.
  - destruct (reduction_identity_or_error (Plain.kernel true) "out" "max"
                (Symbol "i0") "tmp7") as (_ & Hmax).
    destruct (Hmax "float('-inf')")
      as (res & res2 & _ & _ & Hcomp & Hok & Hstore & _).
    { apply list_elem_of_further, list_elem_of_here. }
    exists res, res2. split; [exact Hcomp|].
    assert (Hret : (reduction "out" "max" (Symbol "i0") "tmp7"
                      (Plain.kernel true)).2 = Ok tt).
    { apply Hok. split; reflexivity. }
    split; [exact Hret | exact (proj2 (Hstore Hret))].
Defined.

Example reduction_sum :
  let k' := (reduction "out" "sum" (Symbol "i0") "tmp7"
               (Plain.kernel true)).1 in
  compute k'
  = ["tmp0 = tl.where(mask_reduction, tmp7, 0) if NEED_MASK else tmp7";
     "tmp1 = tl.sum(tmp0, 1)"]
  ∧ stores k' = ["tl.store(out + i0, tmp1, mask=mask)"].
Proof. split; reflexivity. Qed.

Example reduction_max_min :
  compute (reduction "out" "max" (Symbol "i0") "tmp7"
             (Plain.kernel true)).1
  = ["tmp0 = tl.where(mask_reduction, tmp7, float('-inf')) if NEED_MASK else tmp7";
     "tmp1 = tl.max(tmp0, 1)"]
  ∧ compute (reduction "out" "min" (Symbol "i0") "tmp7"
               (Plain.kernel true)).1
    = ["tmp0 = tl.where(mask_reduction, tmp7, float('inf')) if NEED_MASK else tmp7";
       "tmp1 = tl.min(tmp0, 1)"].
Proof. split; reflexivity. Qed.

End KernelExamples.

(** ** [ExpandView.make_loader] *)

Section ExpandViewProps.
Import Ir.

(** The loader never reaches the inner loader: an index of the wrong
    length fails the assertion, and any other index raises [TypeError]
    at the head of the loop. *)
Lemma make_loader_raises {V} (target actual : list Expr)
  (inner : list Expr → result V) (index : list Expr) :
  make_loader target actual inner index
  = if decide (length (slice_from (Z.of_nat (length target)
                                    - Z.of_nat (length actual)) index)
               = length actual)
    then Raise TypeError else Raise AssertionError.
Proof. unfold make_loader. by case_decide. Qed.

(** C9 (the code against the claim).  On a view of a node of size
    [(1, 3)] expanded to [(2, 1, 3)], the index [(5, 7, 2)] should reach
    the inner loader as [(0, 2)]; the loader raises [TypeError] instead,
    as it does on every index of the right length. *)
Theorem make_loader_type_error :
  let target := [Integer 2; Integer 1; Integer 3] in
  let actual := [Integer 1; Integer 3] in
  let index := [Integer 5; Integer 7; Integer 2] in
  make_loader target actual Ok index = Raise TypeError
  ∧ make_loader_spec target actual Ok index = Ok [Integer 0; Integer 2]
  ∧ ∀ V (inner : list Expr → result V) target actual index,
      ∃ e, make_loader target actual inner index = Raise e.
Proof.
  split; [reflexivity|]. split; [reflexivity|].
  intros V inner target actual index. rewrite make_loader_raises.
  case_decide; eauto.
Qed.

End ExpandViewProps.

(** *** The loop as it was meant *)

Section ExpandViewRange.
Import Ir Spec.

Lemma zero_out_loop_length (actual index : list Expr) (idxs : list nat) :
  length (foldl (λ idx i, zero_out actual i idx) index idxs) = length index.
Proof.
  revert index. induction idxs as [|i idxs IH]; intros index; [done|].
  simpl. rewrite IH. unfold zero_out. case_decide; [|done].
  apply length_insert.
Qed.

(** With [range] in the loop header, the loop puts 0 at the positions
    where [actual] is 1 and leaves the others alone. *)
Lemma zero_out_loop_lookup (actual index : list Expr) (m j : nat) :
  foldl (λ idx i, zero_out actual i idx) index (seq 0 m) !! j
  = if decide ((j < m)%nat ∧ actual !! j = Some (Integer 1))
    then const (Integer 0) <$> index !! j
    else index !! j.
Proof.
  induction m as [|m IH].
  - rewrite decide_False by lia. done.
  - rewrite seq_S, foldl_snoc. simpl. unfold zero_out at 1.
    destruct (decide (actual !! m = Some (Integer 1))) as [Hm|Hm].
    + rewrite list_lookup_insert, zero_out_loop_length.
      destruct (decide (m = j ∧ (m < length index)%nat)) as [[-> Hlt]|Hno].
      * rewrite decide_True by (split; [lia | done]).
        apply lookup_lt_is_Some in Hlt as [x ->]. done.
      * rewrite IH. destruct (decide (j = m)) as [->|Hne].
        -- rewrite decide_False by lia.
           rewrite decide_True by (split; [lia | done]).
           assert (length index ≤ m)%nat as Hge by (apply not_and_l in Hno; lia).
           by rewrite (lookup_ge_None_2 _ _ Hge).
        -- destruct (decide ((j < m)%nat ∧ actual !! j = Some (Integer 1)))
             as [[? ?]|Hn].
           ++ by rewrite decide_True by (split; [lia | done]).
           ++ rewrite decide_False; [done|]. intros [? ?]. apply Hn.
              split; [lia | done].
    + rewrite IH.
      destruct (decide ((j < m)%nat ∧ actual !! j = Some (Integer 1)))
        as [[? ?]|Hn].
      * by rewrite decide_True by (split; [lia | done]).
      * rewrite decide_False; [done|]. intros [? Hj]. apply Hn.
        split; [|done]. destruct (decide (j = m)) as [->|]; [done | lia].
Qed.

(** On an index of the rank of the view, the loader with [range] is the
    loader of the specification. *)
Lemma make_loader_range_spec {V} (target actual : list Expr)
  (inner : list Expr → result V) (index : list Expr) :
  (length actual ≤ length target)%nat →
  length index = length target →
  make_loader_range target actual inner index
  = make_loader_spec target actual inner index.
Proof.
  intros Hle Hlen. unfold make_loader_range, make_loader_spec, slice_from.
  destruct (decide (0 ≤ Z.of_nat (length target) - Z.of_nat (length actual)))
    as [_|?]; [|lia].
  replace (Z.to_nat (Z.of_nat (length target) - Z.of_nat (length actual)))
    with (length target - length actual)%nat by lia.
  set (index' := drop (length target - length actual) index).
  assert (Hlen' : length index' = length actual).
  { unfold index'. rewrite length_drop. lia. }
  rewrite decide_True by done. unfold for_in, range. simpl. f_equal.
  unfold broadcast_index_spec. fold index'.
  apply list_eq. intros j.
  rewrite zero_out_loop_lookup, lookup_zip_with.
  destruct (actual !! j) as [size|] eqn:Hj; simpl.
  - pose proof (lookup_lt_Some _ _ _ Hj) as Hlt.
    destruct (index' !! j) as [x|] eqn:Hx; simpl.
    + destruct (decide (size = Integer 1)) as [->|Hne].
      * by rewrite decide_True by (split; [lia | done]).
      * rewrite decide_False; [done|]. intros [_ [= ?]]. done.
    + by case_decide.
  - apply lookup_ge_None_1 in Hj.
    rewrite decide_False by (intros [? ?]; done).
    apply lookup_ge_None_2. lia.
Qed.

(** What the claim promises of such a loader: the index requested in a
    broadcast dimension does not reach the inner loader. *)
Lemma make_loader_spec_ignores_broadcast {V} (target actual : list Expr)
  (inner : list Expr → result V) (index : list Expr) (i : nat) (x : Expr) :
  actual !! i = Some (Integer 1) →
  make_loader_spec target actual inner
    (<[(length target - length actual + i)%nat := x]> index)
  = make_loader_spec target actual inner index.
Proof.
  intros Hi. unfold make_loader_spec, broadcast_index_spec. f_equal.
  apply list_eq. intros j. rewrite !lookup_zip_with, !lookup_drop.
  destruct (actual !! j) as [size|] eqn:Hj; [simpl | done].
  destruct (decide (j = i)) as [->|Hne].
  - rewrite list_lookup_insert.
    destruct (decide (_ = _ ∧ (_ < length index)%nat)) as [[_ Hlt]|_]; [|done].
    apply lookup_lt_is_Some in Hlt as [y ->].
    simpl. rewrite Hi in Hj. injection Hj as <-.
    by rewrite !decide_True by done.
  - rewrite list_lookup_insert_ne by lia. done.
Qed.

End ExpandViewRange.

(** ** The allocator on concrete inputs *)

Section AllocatorExamples.
Import Shapes Spec.

Example getitem_fresh :
  (getitem 7 (init "s" true)).1 = Symbol "s0"
  ∧ (getitem 9 (lookups [7] (init "s" true))).1 = Symbol "s1"
  ∧ (getitem 0 (init "s" false)).1 = Symbol "s0".
Proof. repeat split; reflexivity. Qed.

(** One input [x] of size [(s0, s1)] and stride [(s1, 1)]: both
    variables are bound from the sizes, and the stride that repeats
    [s1] adds no line. *)
Example codegen_binds :
  codegen (lookups [7; 9] (init "s" true)) []
    [("x", {| get_size := [Symbol "s0"; Symbol "s1"];
              get_stride := [Symbol "s1"; Integer 1] |})]
  = (["s0 = x.size(0)"; "s1 = x.size(1)"], Ok tt).
Proof. vm_compute. reflexivity. Qed.

(** A variable that only a stride holds, and one that no input holds. *)
Example codegen_stride_and_unbound :
  codegen (lookups [7; 9] (init "s" true)) []
    [("x", {| get_size := [Symbol "s0"];
              get_stride := [Symbol "s1"] |})]
  = (["s0 = x.size(0)"; "s1 = x.stride(0)"], Ok tt)
  ∧ codegen (lookups [7; 9] (init "s" true)) []
      [("x", {| get_size := [Symbol "s0"]; get_stride := [Integer 1] |})]
    = (["s0 = x.size(0)"], Raise AssertionError).
Proof. split; vm_compute; reflexivity. Qed.

End AllocatorExamples.

(** ** [FixedLayout.make_indexer] and [indexer_from_sizes] *)

Section Indexer.
Import Triton Ir Spec Layout.

(** The default strides of a shape, dimension by dimension. *)
Lemma default_strides_cons (size : Z) (sizes : list Z) :
  default_strides (size :: sizes)
  = strides ← default_strides sizes; Ok (product sizes :: strides).
Proof.
  rewrite !default_strides_eq. simpl. destruct sizes as [|s l]; [done|].
  simpl. do 2 f_equal.
  pose proof (suffix_products_lookup l 0%nat ltac:(lia)) as H.
  rewrite <- head_lookup in H. rewrite H. simpl. by rewrite product_cons.
Qed.

Lemma foldl_add (a : Z) (l : list Z) :
  foldl Z.add a l = a + foldl Z.add 0 l.
Proof.
  revert a. induction l as [|x l IH]; intros a; simpl; [lia|].
  rewrite (IH (a + x)), (IH (0 + x)). lia.
Qed.

Lemma make_indexer_cons (s : Z) (stride : list Z) (i : Z) (index : list Z) :
  make_indexer (s :: stride) 0 (i :: index)
  = z ← make_indexer stride 0 index; Ok (i * s + z).
Proof.
  unfold make_indexer.
  destruct (decide (length index = length stride)) as [Hl|Hl].
  - rewrite decide_True by (simpl; by f_equal). simpl. f_equal.
    rewrite (foldl_add (0 + i * s)). lia.
  - rewrite decide_False by (simpl; intros [= ?]; done). done.
Qed.

Lemma default_strides_length (sizes strides : list Z) :
  default_strides sizes = Ok strides → length strides = length sizes.
Proof.
  rewrite default_strides_eq. intros [= <-]. destruct sizes; [done|].
  apply suffix_products_length.
Qed.

(** The indexer of the default strides, in closed form. *)
Lemma indexer_from_sizes_eq (sizes index : list Z) :
  indexer_from_sizes sizes index
  = if decide (length index = length sizes) then Ok (ravel sizes index)
    else Raise AssertionError.
Proof.
  unfold indexer_from_sizes.
  revert index. induction sizes as [|s sizes IH]; intros index.
  - rewrite default_strides_eq. unfold make_indexer.
    destruct index as [|i index]; [done|].
    by rewrite !decide_False by done.
  - rewrite default_strides_cons.
    destruct (default_strides sizes) as [strides|e] eqn:Hs;
      [|by rewrite default_strides_eq in Hs].
    pose proof (default_strides_length _ _ Hs) as Hlen.
    unfold mbind, result_bind.
    destruct index as [|i index].
    + unfold make_indexer. by rewrite !decide_False by done.
    + rewrite make_indexer_cons.
      specialize (IH index). unfold mbind, result_bind in IH |- *.
      rewrite IH.
      destruct (decide (length index = length sizes)) as [Hl|Hl].
      * rewrite decide_True by (simpl; by f_equal). done.
      * rewrite decide_False by (simpl; intros [= ?]; done). done.
Qed.

(** X1.  [indexer_from_sizes(sizes)(index)] fails its assertion exactly
    when the index has not the rank of the shape, and returns exactly the
    row-major offset of the index otherwise: each component weighted by
    the product of the sizes that follow it. *)
Theorem indexer_from_sizes_ravel (sizes index : list Z) :
  (indexer_from_sizes sizes index = Raise AssertionError
   ↔ length index ≠ length sizes)
  ∧ (∀ offset, indexer_from_sizes sizes index = Ok offset
               ↔ length index = length sizes ∧ offset = ravel sizes index).
Proof.
  rewrite indexer_from_sizes_eq.
  destruct (decide (length index = length sizes)) as [Hl|Hl].
  - split; [split; [discriminate | done]|].
    intros offset. split; [by intros [= <-] | by intros [_ ->]].
  - split; [done|]. intros offset. split; [discriminate | by intros [? _]].
Qed.

Lemma in_bounds_length (sizes index : list Z) :
  in_bounds sizes index → length index = length sizes.
Proof. apply Forall2_length. Qed.

Lemma ravel_bounds (sizes index : list Z) :
  in_bounds sizes index → 0 ≤ ravel sizes index < product sizes.
Proof.
  unfold in_bounds. intros H. induction H as [|i s index sizes Hi _ IH].
  - simpl. rewrite product_nil. lia.
  - simpl. rewrite product_cons. nia.
Qed.

Lemma ravel_inj (sizes index1 index2 : list Z) :
  in_bounds sizes index1 → in_bounds sizes index2 →
  ravel sizes index1 = ravel sizes index2 → index1 = index2.
Proof.
  unfold in_bounds. intros H1. revert index2.
  induction H1 as [|i1 s index1 sizes Hi1 H1 IH]; intros index2 H2 Heq.
  - by apply Forall2_nil_inv_r in H2.
  - apply Forall2_cons_inv_r in H2 as (i2 & index2' & Hi2 & H2 & ->).
    simpl in Heq.
    pose proof (ravel_bounds _ _ H1) as Hb1.
    pose proof (ravel_bounds _ _ H2) as Hb2.
    assert (i1 = i2) as -> by nia.
    f_equal. apply IH; [done | lia].
Qed.

(** X2.  On an index within the bounds of the shape, the indexer of the
    default strides returns an offset from 0 up to, and excluding, the
    number of elements of the shape. *)
Theorem indexer_from_sizes_in_range (sizes index : list Z) :
  in_bounds sizes index →
  ∃ offset, indexer_from_sizes sizes index = Ok offset
            ∧ 0 ≤ offset < product sizes.
Proof.
  intros H. rewrite indexer_from_sizes_eq.
  rewrite decide_True by by apply in_bounds_length.
  eexists. split; [done|]. by apply ravel_bounds.
Qed.

(** X3.  Two indices within the bounds of the same shape that get the
    same offset are the same index: distinct elements never share an
    address. *)
Theorem indexer_from_sizes_inj (sizes index1 index2 : list Z) :
  in_bounds sizes index1 → in_bounds sizes index2 →
  indexer_from_sizes sizes index1 = indexer_from_sizes sizes index2 →
  index1 = index2.
Proof.
  intros H1 H2. rewrite !indexer_from_sizes_eq.
  rewrite !decide_True by by apply in_bounds_length.
  intros [= Heq]. by apply (ravel_inj sizes).
Qed.

Lemma product_pos (sizes : list Z) :
  Forall (λ size, 0 < size) sizes → 0 < product sizes.
Proof.
  induction 1 as [|s sizes Hs _ IH]; [by rewrite product_nil|].
  rewrite product_cons. nia.
Qed.

Lemma unravel_in_bounds (sizes : list Z) (offset : Z) :
  Forall (λ size, 0 < size) sizes → 0 ≤ offset < product sizes →
  in_bounds sizes (unravel sizes offset).
Proof.
  unfold in_bounds. intros Hpos. revert offset.
  induction Hpos as [|s sizes Hs Hpos IH]; intros offset Hoff; simpl.
  - constructor.
  - rewrite product_cons in Hoff.
    pose proof (product_pos _ Hpos) as Hp.
    constructor.
    + split; [apply Z.div_pos; lia|].
      apply Z.div_lt_upper_bound; lia.
    + apply IH. apply Z.mod_pos_bound. lia.
Qed.

Lemma ravel_unravel (sizes : list Z) (offset : Z) :
  Forall (λ size, 0 < size) sizes → 0 ≤ offset < product sizes →
  ravel sizes (unravel sizes offset) = offset.
Proof.
  intros Hpos. revert offset.
  induction Hpos as [|s sizes Hs Hpos IH]; intros offset Hoff; simpl.
  - rewrite product_nil in Hoff. lia.
  - pose proof (product_pos _ Hpos) as Hp.
    rewrite IH by (apply Z.mod_pos_bound; lia).
    rewrite (Z.div_mod offset (product sizes)) at 3 by lia. lia.
Qed.

(** X4.  Every offset from 0 up to the number of elements of a shape of
    positive sizes is the address of an index within bounds: dividing the
    offset by the products of the trailing sizes gives that index, and
    the indexer maps it back to the offset. *)
Theorem indexer_from_sizes_unravel (sizes : list Z) (offset : Z) :
  Forall (λ size, 0 < size) sizes → 0 ≤ offset < product sizes →
  in_bounds sizes (unravel sizes offset)
  ∧ indexer_from_sizes sizes (unravel sizes offset) = Ok offset.
Proof.
  intros Hpos Hoff.
  pose proof (unravel_in_bounds _ _ Hpos Hoff) as Hb.
  split; [done|]. rewrite indexer_from_sizes_eq.
  rewrite decide_True by by apply in_bounds_length.
  by rewrite ravel_unravel.
Qed.

End Indexer.

(** The statements of X2 to X4 on the shape [(2, 3, 4)]. *)
Section IndexerExamples.
Import Triton Ir Layout.

Lemma indexer_from_sizes_in_range_witness :
  ∃ offset, indexer_from_sizes [2; 3; 4] [1; 2; 3] = Ok offset
            ∧ 0 ≤ offset < product [2; 3; 4].
Proof.
  apply (indexer_from_sizes_in_range [2; 3; 4] [1; 2; 3]).
  repeat constructor; lia.
Defined.

Lemma indexer_from_sizes_inj_witness : [1; 2; 3] = [1; 2; 3].
Proof.
  apply (indexer_from_sizes_inj [2; 3; 4] [1; 2; 3] [1; 2; 3]).
  - repeat constructor; lia.
  - repeat constructor; lia.
  - reflexivity.
Defined.

Lemma indexer_from_sizes_unravel_witness :
  in_bounds [2; 3; 4] (unravel [2; 3; 4] 23)
  ∧ indexer_from_sizes [2; 3; 4] (unravel [2; 3; 4] 23) = Ok 23.
Proof.
  apply (indexer_from_sizes_unravel [2; 3; 4] 23).
  - repeat constructor; lia.
  - vm_compute. split; [discriminate | reflexivity].
Defined.

Example indexer_from_sizes_values :
  indexer_from_sizes [2; 3; 4] [1; 2; 3] = Ok 23
  ∧ indexer_from_sizes [2; 3; 4] [1; 2] = Raise AssertionError
  ∧ indexer_from_sizes [] [] = Ok 0.
Proof. repeat split; reflexivity. Qed.

End IndexerExamples.

(** ** [SizeVarAllocator]: the two dictionaries *)

Section AllocatorBookkeeping.
Import Shapes Spec Alloc.

Lemma nth_var_inj (prefix : string) : Inj (=) (=) (nth_var prefix).
Proof.
  intros i j [= H]. apply (inj (String.app prefix)) in H.
  by apply (inj pretty) in H.
Qed.

Lemma odict_set_fresh (key : Expr) (value : Z) (d : list (Expr * Z)) :
  key ∉ d.*1 → odict_set key value d = d ++ [(key, value)].
Proof.
  induction d as [|[k v] d IH]; intros Hfresh; simpl; [done|].
  rewrite fmap_cons, not_elem_of_cons in Hfresh. destruct Hfresh as [Hne Hd].
  rewrite decide_False by (simpl in Hne; congruence).
  by rewrite IH.
Qed.

Lemma consistent_fresh (self : SizeVarAllocator) :
  consistent self →
  nth_var (prefix self) (length (var_to_val self)) ∉ (var_to_val self).*1.
Proof.
  intros [Hkeys _ _]. rewrite Hkeys.
  intros (i & Heq & Hi)%list_elem_of_fmap.
  apply nth_var_inj in Heq. subst i. apply elem_of_seq in Hi. lia.
Qed.

Lemma init_consistent (prefix : string) (zero_one_const : bool) :
  consistent (init prefix zero_one_const).
Proof.
  split; simpl.
  - done.
  - intros val var. destruct zero_one_const.
    + intros H. left.
      destruct (decide (val = 0)) as [->|]; [simplify_map_eq; auto|].
      destruct (decide (val = 1)) as [->|]; [simplify_map_eq; auto|].
      by simplify_map_eq.
    + by rewrite lookup_empty.
  - intros var val H. by apply elem_of_nil in H.
Qed.

(** A lookup keeps the two dictionaries consistent. *)
Lemma getitem_consistent (val : Z) (self : SizeVarAllocator) :
  consistent self → consistent (getitem val self).2.
Proof.
  intros Hc. unfold getitem.
  destruct (val_to_var self !! val) as [var|] eqn:Hval; [done|]. simpl.
  unfold odict_len.
  fold (nth_var (prefix self) (length (var_to_val self))).
  rewrite (odict_set_fresh _ _ _ (consistent_fresh _ Hc)).
  destruct Hc as [Hkeys Hfwd Hbwd]. split; simpl.
  - rewrite fmap_app, length_app, Hkeys. simpl.
    by rewrite Nat.add_1_r, seq_S, fmap_app.
  - intros v e. destruct (decide (val = v)) as [->|Hne].
    + rewrite lookup_insert_eq. intros [= <-]. right.
      apply elem_of_app. right. apply list_elem_of_singleton. done.
    + rewrite lookup_insert_ne by done. intros [H|H]%Hfwd; [by left|].
      right. apply elem_of_app. by left.
  - intros e v [H|H%list_elem_of_singleton]%elem_of_app.
    + rewrite lookup_insert_ne; [by apply Hbwd|].
      intros ->. apply Hbwd in H. congruence.
    + injection H as -> ->. apply lookup_insert_eq.
Qed.

Lemma lookups_consistent (vals : list Z) (self : SizeVarAllocator) :
  consistent self → consistent (lookups vals self).
Proof.
  revert self. induction vals as [|val vals IH]; intros self Hc; [done|].
  simpl. apply IH. by apply getitem_consistent.
Qed.

Lemma getitem_prefix (val : Z) (self : SizeVarAllocator) :
  prefix (getitem val self).2 = prefix self.
Proof. unfold getitem. by destruct (val_to_var self !! val). Qed.

Lemma lookups_prefix (vals : list Z) (self : SizeVarAllocator) :
  prefix (lookups vals self) = prefix self.
Proof.
  revert self. induction vals as [|val vals IH]; intros self; [done|].
  simpl. by rewrite IH, getitem_prefix.
Qed.

(** X5.  After any lookups on a new allocator, the variables of the
    reverse dictionary are, in the order they were minted, the symbols
    [prefix0], [prefix1], ...: the index in a name counts the variables
    minted before it. *)
Theorem var_to_val_numbered (prefix : string) (zero_one_const : bool)
  (vals : list Z) :
  let self := lookups vals (init prefix zero_one_const) in
  (var_to_val self).*1
  = (λ i : nat, Symbol (prefix +:+ pretty i))
      <$> seq 0 (length (var_to_val self)).
Proof.
  intros self.
  pose proof (lookups_consistent vals _
                (init_consistent prefix zero_one_const)) as [Hkeys _ _].
  fold self in Hkeys. rewrite Hkeys. unfold self.
  by rewrite lookups_prefix.
Qed.

(** X6.  After any lookups on a new allocator, the forward and reverse
    dictionaries are inverse to each other: a value looked up next is
    either one of the folded constants 0 and 1 (returned as itself) or is
    recorded, after the lookup, in the reverse dictionary under the
    variable returned; and a variable recorded for a value is what a
    lookup of the value returns, without changing the allocator. *)
Theorem getitem_round_trip (prefix : string) (zero_one_const : bool)
  (vals : list Z) (val : Z) :
  let self := lookups vals (init prefix zero_one_const) in
  (((getitem val self).1 = Integer val
    ∧ zero_one_const = true ∧ (val = 0 ∨ val = 1))
   ∨ ((getitem val self).1, val) ∈ var_to_val (getitem val self).2)
  ∧ (∀ var, (var, val) ∈ var_to_val self → getitem val self = (var, self)).
Proof.
  intros self.
  pose proof (lookups_consistent vals _
                (init_consistent prefix zero_one_const)) as Hc.
  fold self in Hc. split.
  - pose proof (getitem_consistent val self Hc) as [_ Hfwd _].
    destruct (Hfwd _ _ (getitem_recorded val self)) as [[Heq Hv]|Hin];
      [|by right].
    destruct zero_one_const; [by left|]. right.
    (* without constant folding, an integer is never returned *)
    exfalso. clear Hfwd.
    assert (Hnone : ∀ a v, consistent a →
              (∀ w z, val_to_var a !! w ≠ Some (Integer z)) →
              ∀ w z, val_to_var (getitem v a).2 !! w ≠ Some (Integer z)).
    { intros a v _ Ha w z. unfold getitem.
      destruct (val_to_var a !! v) eqn:Hv'; simpl; [apply Ha|].
      destruct (decide (v = w)) as [->|].
      - rewrite lookup_insert_eq. done.
      - rewrite lookup_insert_ne by done. apply Ha. }
    assert (Hall : ∀ vs a, consistent a →
              (∀ w z, val_to_var a !! w ≠ Some (Integer z)) →
              ∀ w z, val_to_var (lookups vs a) !! w ≠ Some (Integer z)).
    { induction vs as [|v vs IH]; intros a Hca Ha; [done|]. simpl.
      apply IH; [by apply getitem_consistent | by apply Hnone]. }
    apply (Hnone self val Hc
             (Hall vals _ (init_consistent prefix false)
                (λ w z, ltac:(simpl; by rewrite lookup_empty)))
             val val).
    rewrite <- Heq. apply getitem_recorded.
  - intros var Hin. apply getitem_hit. by apply (backward _ Hc).
Qed.

Lemma NoDup_fst_unique {A B} (l : list (A * B)) (x : A) (y1 y2 : B) :
  NoDup l.*1 → (x, y1) ∈ l → (x, y2) ∈ l → y1 = y2.
Proof.
  induction l as [|[a b] l IH]; simpl; intros Hnd H1 H2.
  - by apply elem_of_nil in H1.
  - apply NoDup_cons in Hnd as [Hnotin Hnd].
    apply elem_of_cons in H1 as [Heq1|H1];
      apply elem_of_cons in H2 as [Heq2|H2]; simplify_eq; try done.
    + exfalso. apply Hnotin. apply list_elem_of_fmap. by exists (a, y2).
    + exfalso. apply Hnotin. apply list_elem_of_fmap. by exists (a, y1).
    + by apply IH.
Qed.

Lemma consistent_NoDup (self : SizeVarAllocator) :
  consistent self → NoDup (var_to_val self).*1.
Proof.
  intros [Hkeys _ _]. rewrite Hkeys.
  apply NoDup_fmap_2; [apply nth_var_inj | apply NoDup_seq].
Qed.

(** In a consistent allocator no expression stands for two values. *)
Lemma consistent_inj (self : SizeVarAllocator) (val1 val2 : Z) (var : Expr) :
  consistent self →
  val_to_var self !! val1 = Some var → val_to_var self !! val2 = Some var →
  val1 = val2.
Proof.
  intros Hc H1 H2. pose proof (consistent_NoDup _ Hc) as Hnd.
  destruct Hc as [Hkeys Hfwd _].
  assert (Hsym : ∀ val, (var, val) ∈ var_to_val self → ∃ name, var = Symbol name).
  { intros val Hin.
    assert (var ∈ (var_to_val self).*1) as Hk
      by (apply list_elem_of_fmap; by exists (var, val)).
    rewrite Hkeys in Hk. apply list_elem_of_fmap in Hk as (i & -> & _).
    by eexists. }
  destruct (Hfwd _ _ H1) as [[-> _]|Hin1], (Hfwd _ _ H2) as [[Heq _]|Hin2].
  - by injection Heq.
  - by destruct (Hsym _ Hin2).
  - subst var. by destruct (Hsym _ Hin1).
  - by apply (NoDup_fst_unique _ _ _ _ Hnd Hin1 Hin2).
Qed.

(** X7.  After any lookups on a new allocator, two values that are given
    the same expression are the same value: distinct sizes never share a
    symbolic variable, and no variable is confused with a constant. *)
Theorem getitem_injective (prefix : string) (zero_one_const : bool)
  (vals : list Z) (val1 val2 : Z) :
  let self := lookups vals (init prefix zero_one_const) in
  (getitem val2 (getitem val1 self).2).1 = (getitem val1 self).1 →
  val1 = val2.
Proof.
  intros self Heq.
  pose proof (lookups_consistent vals _
                (init_consistent prefix zero_one_const)) as Hc.
  fold self in Hc.
  set (self1 := (getitem val1 self).2) in *.
  assert (Hc2 : consistent (getitem val2 self1).2)
    by by do 2 apply getitem_consistent.
  apply (consistent_inj _ _ _ (getitem val1 self).1 Hc2).
  - apply getitem_preserves, getitem_recorded.
  - rewrite <- Heq. apply getitem_recorded.
Qed.

Lemma getitem_dom (val : Z) (self : SizeVarAllocator) :
  dom (val_to_var (getitem val self).2) = {[val]} ∪ dom (val_to_var self).
Proof.
  unfold getitem. destruct (val_to_var self !! val) eqn:Hval; simpl.
  - assert (val ∈ dom (val_to_var self)) by (apply elem_of_dom; eauto).
    set_solver.
  - by rewrite dom_insert_L.
Qed.

Lemma lookups_dom (vals : list Z) (self : SizeVarAllocator) :
  dom (val_to_var (lookups vals self))
  = list_to_set vals ∪ dom (val_to_var self).
Proof.
  revert self. induction vals as [|val vals IH]; intros self; simpl.
  - set_solver.
  - rewrite IH, getitem_dom. set_solver.
Qed.

Lemma getitem_balance (val : Z) (self : SizeVarAllocator) (n : nat) :
  consistent self →
  size (val_to_var self) = (length (var_to_val self) + n)%nat →
  size (val_to_var (getitem val self).2)
  = (length (var_to_val (getitem val self).2) + n)%nat.
Proof.
  intros Hc Hn. unfold getitem.
  destruct (val_to_var self !! val) eqn:Hval; simpl; [done|].
  unfold odict_len.
  fold (nth_var (prefix self) (length (var_to_val self))).
  rewrite (odict_set_fresh _ _ _ (consistent_fresh _ Hc)).
  rewrite map_size_insert_None by done.
  rewrite length_app. simpl. lia.
Qed.

Lemma lookups_balance (vals : list Z) (self : SizeVarAllocator) (n : nat) :
  consistent self →
  size (val_to_var self) = (length (var_to_val self) + n)%nat →
  size (val_to_var (lookups vals self))
  = (length (var_to_val (lookups vals self)) + n)%nat.
Proof.
  revert self. induction vals as [|val vals IH]; intros self Hc Hn; [done|].
  simpl. apply IH; [by apply getitem_consistent | by apply getitem_balance].
Qed.

(** X8.  After the lookups of [vals] on a new allocator, the number of
    variables minted is the number of distinct values among [vals], not
    counting 0 and 1 when constant folding is on: one variable per value,
    however often and in whatever order the values are looked up. *)
Theorem var_to_val_count (prefix : string) (zero_one_const : bool)
  (vals : list Z) :
  let self := lookups vals (init prefix zero_one_const) in
  let folded : gset Z := if zero_one_const then {[0; 1]} else ∅ in
  length (var_to_val self) = size (list_to_set vals ∖ folded : gset Z).
Proof.
  intros self folded.
  assert (Hdom0 : dom (val_to_var (init prefix zero_one_const)) = folded).
  { unfold folded. destruct zero_one_const; simpl.
    - rewrite !dom_insert_L, dom_empty_L. set_solver.
    - apply dom_empty_L. }
  assert (Hsize0 : size (val_to_var (init prefix zero_one_const))
                   = (length (var_to_val (init prefix zero_one_const))
                      + size folded)%nat).
  { rewrite <- Hdom0, size_dom. simpl. done. }
  pose proof (lookups_balance vals _ _
                (init_consistent prefix zero_one_const) Hsize0) as Hbal.
  fold self in Hbal.
  rewrite <- size_dom in Hbal. unfold self in Hbal at 1.
  rewrite lookups_dom, Hdom0 in Hbal.
  assert (Hsplit : (list_to_set vals ∪ folded : gset Z)
                   = (list_to_set vals ∖ folded) ∪ folded).
  { apply set_eq. intros x. rewrite !elem_of_union, elem_of_difference.
    destruct (decide (x ∈ folded)); tauto. }
  rewrite Hsplit, size_union in Hbal by set_solver. lia.
Qed.

End AllocatorBookkeeping.

Section AllocatorBookkeepingExamples.
Import Shapes Spec.

(** The statement of X7 at two lookups of the value 7. *)
Lemma getitem_injective_witness : 7 = 7.
Proof.
  apply (getitem_injective "s" true [3; 5] 7 7). reflexivity.
Defined.

Example getitem_distinct :
  (getitem 7 (lookups [3; 5] (init "s" true))).1 = Symbol "s2"
  ∧ (getitem 5 (lookups [3; 5] (init "s" true))).1 = Symbol "s1"
  ∧ var_to_val (lookups [3; 5; 3; 1] (init "s" true))
    = [(Symbol "s0", 3); (Symbol "s1", 5)].
Proof. repeat split; vm_compute; reflexivity. Qed.

End AllocatorBookkeepingExamples.

(** ** [SizeVarAllocator.codegen]: how many bindings, and when it returns *)

Section CodegenCount.
Import Shapes Spec Alloc.

Lemma codegen_eq (self : SizeVarAllocator) (code : list string)
  (graph_inputs : list (string * InputBuffer)) :
  let cands := all_candidates graph_inputs in
  codegen self code graph_inputs
  = (code ++ (render <$> bound (symbolic_vars self) cands),
     if decide (symbolic_vars self ∖ list_to_set (shape <$> cands)
                = (∅ : gset string))
     then Ok tt else Raise AssertionError).
Proof.
  intros cands. unfold codegen. fold (symbolic_vars self).
  rewrite !scan_candidates, <- foldl_app. fold (all_candidates graph_inputs).
  fold cands. by rewrite foldl_step_bound.
Qed.

(** The first candidate of a given shape. *)
Lemma first_match_exists (cands : list candidate) (c : candidate) :
  c ∈ cands → ∃ i c', first_match cands i c' ∧ shape c' = shape c.
Proof.
  induction cands as [|c0 cands IH]; [by intros ?%elem_of_nil|].
  intros Hin.
  destruct (decide (shape c0 = shape c)) as [Heq|Hne].
  - exists 0%nat, c0. split; [|done]. split; [done|]. intros; lia.
  - apply elem_of_cons in Hin as [->|Hin]; [done|].
    destruct (IH Hin) as (i & c' & [Hi Hfirst] & Hsh).
    exists (S i), c'. split; [|done]. split; [done|].
    intros [|j] c'' Hj Hc''; simpl in Hc''.
    + injection Hc'' as <-. congruence.
    + apply (Hfirst j); [lia | done].
Qed.

Lemma bound_shapes (cands : list candidate) (needed : gset string) :
  list_to_set (shape <$> bound needed cands)
  = needed ∩ list_to_set (shape <$> cands).
Proof.
  apply set_eq. intros v.
  rewrite elem_of_intersection, !elem_of_list_to_set, !list_elem_of_fmap.
  split.
  - intros (c & -> & Hc). apply bound_first_match in Hc as (Hn & i & Hi & _).
    split; [done|]. exists c. split; [done|].
    by apply list_elem_of_lookup_2 in Hi.
  - intros (Hn & c & -> & Hc).
    destruct (first_match_exists _ _ Hc) as (i & c' & Hfirst & Hsh).
    exists c'. split; [done|]. apply bound_first_match.
    split; [by rewrite Hsh | eauto].
Qed.

(** X9.  [codegen] adds at most one binding line per symbolic variable,
    and, when it returns, exactly one per variable: the number of lines
    added is then the number of symbolic variables. *)
Theorem codegen_line_count (self : SizeVarAllocator) (code : list string)
  (graph_inputs : list (string * InputBuffer)) :
  let code' := (codegen self code graph_inputs).1 in
  (length code' ≤ length code + size (symbolic_vars self))%nat
  ∧ ((codegen self code graph_inputs).2 = Ok tt →
     length code' = (length code + size (symbolic_vars self))%nat).
Proof.
  pose proof (codegen_eq self code graph_inputs) as Heq. simpl in Heq.
  rewrite Heq. simpl. clear Heq.
  set (cands := all_candidates graph_inputs).
  set (vars := symbolic_vars self).
  rewrite length_app, length_fmap.
  assert (Hlen : length (bound vars cands)
                 = size (vars ∩ list_to_set (shape <$> cands) : gset string)).
  { rewrite <- bound_shapes, size_list_to_set by apply bound_NoDup.
    by rewrite length_fmap. }
  rewrite Hlen. split.
  - apply Nat.add_le_mono_l. apply subseteq_size. set_solver.
  - destruct (decide _) as [Hd|Hd]; [|discriminate]. intros _.
    assert (Hsub : vars ⊆ list_to_set (shape <$> cands)).
    { intros v Hv. destruct (decide (v ∈ shape <$> cands)) as [Hin|Hnin].
      - by apply elem_of_list_to_set.
      - exfalso. apply (not_elem_of_empty (C := gset string) v).
        rewrite <- Hd. apply elem_of_difference. split; [done|].
        by rewrite elem_of_list_to_set. }
    assert (vars ∩ list_to_set (shape <$> cands) = vars) as -> by set_solver.
    done.
Qed.

Lemma codegen_line_count_witness :
  length (codegen (lookups [7; 9] (init "s" true)) []
            [("x", {| get_size := [Symbol "s0"; Symbol "s1"];
                      get_stride := [Symbol "s1"; Integer 1] |})]).1
  = size (symbolic_vars (lookups [7; 9] (init "s" true))).
Proof.
  apply (codegen_line_count (lookups [7; 9] (init "s" true)) []).
  vm_compute. reflexivity.
Defined.

(** *** Inputs described through the allocator *)

Lemma odict_set_keys (key : Expr) (value : Z) (d : list (Expr * Z)) (k : Expr) :
  k ∈ (odict_set key value d).*1 → k = key ∨ k ∈ d.*1.
Proof.
  induction d as [|[k0 v0] d IH]; simpl.
  - intros ?%list_elem_of_singleton. by left.
  - case_decide as Hk; simpl.
    + subst k0. rewrite !elem_of_cons. tauto.
    + rewrite !elem_of_cons. intros [->|H]; [by right; left|].
      destruct (IH H); [by left | by right; right].
Qed.

Lemma symbolic_vars_elem (self : SizeVarAllocator) (v : string) :
  v ∈ symbolic_vars self ↔ ∃ k, k ∈ (var_to_val self).*1 ∧ v = str k.
Proof.
  unfold symbolic_vars. rewrite elem_of_list_to_set.
  change (map (λ kv : Expr * Z, str kv.1) (var_to_val self))
    with ((λ kv : Expr * Z, str kv.1) <$> var_to_val self).
  rewrite list_elem_of_fmap. split.
  - intros ([k val] & -> & Hin). exists k. split; [|done].
    apply list_elem_of_fmap. by exists (k, val).
  - intros (k & ([k' val] & -> & Hin)%list_elem_of_fmap & ->).
    by exists (k', val).
Qed.

(** A lookup adds at most the name of what it returns. *)
Lemma getitem_symbolic_vars (val : Z) (self : SizeVarAllocator) :
  symbolic_vars (getitem val self).2
  ⊆ symbolic_vars self ∪ {[str (getitem val self).1]}.
Proof.
  intros v. rewrite elem_of_union, elem_of_singleton, !symbolic_vars_elem.
  unfold getitem. destruct (val_to_var self !! val) eqn:Hval; simpl.
  - by left.
  - intros (k & [->|Hk]%odict_set_keys & ->); [by right | left; eauto].
Qed.

Lemma getitems_symbolic_vars (vals : list Z) (self : SizeVarAllocator) :
  symbolic_vars (getitems vals self).2
  ⊆ symbolic_vars self ∪ list_to_set (str <$> (getitems vals self).1).
Proof.
  revert self. induction vals as [|val vals IH]; intros self; simpl.
  - set_solver.
  - pose proof (getitem_symbolic_vars val self) as H1.
    destruct (getitem val self) as [var self1]. simpl in *.
    specialize (IH self1).
    destruct (getitems vals self1) as [vars self2]. simpl in *.
    set_solver.
Qed.

Lemma imap_shapes (f : nat → nat) (name what : string) (l : list Expr) :
  shape <$> ((λ ds : nat * Expr, Candidate (str ds.2) name what ds.1)
               <$> imap (λ i x, (f i, x)) l)
  = str <$> l.
Proof.
  revert f. induction l as [|x l IH]; intros f; simpl; [done|].
  f_equal. apply (IH (f ∘ S)).
Qed.

Lemma candidates_shapes (what : string) (get : InputBuffer → list Expr)
  (name : string) (value : InputBuffer)
  (graph_inputs : list (string * InputBuffer)) :
  shape <$> candidates what get ((name, value) :: graph_inputs)
  = (str <$> get value) ++ (shape <$> candidates what get graph_inputs).
Proof.
  unfold candidates. simpl. rewrite fmap_app. f_equal.
  unfold enumerate. apply (imap_shapes id).
Qed.

Lemma inputs_of_symbolic_vars (descr : list (string * (list Z * list Z)))
  (self : SizeVarAllocator) :
  symbolic_vars (inputs_of descr self).2
  ⊆ symbolic_vars self
    ∪ list_to_set (shape <$> all_candidates (inputs_of descr self).1).
Proof.
  revert self.
  induction descr as [|[name [sizes strides]] descr IH]; intros self; simpl.
  - set_solver.
  - pose proof (getitems_symbolic_vars sizes self) as H1.
    destruct (getitems sizes self) as [size self1]. simpl in H1.
    pose proof (getitems_symbolic_vars strides self1) as H2.
    destruct (getitems strides self1) as [stride self2]. simpl in H2.
    specialize (IH self2).
    destruct (inputs_of descr self2) as [inputs self3]. simpl in *.
    unfold all_candidates in *. rewrite fmap_app in *.
    rewrite !candidates_shapes. simpl.
    rewrite !list_to_set_app_L in *. set_solver.
Qed.

Lemma getitems_consistent (vals : list Z) (self : SizeVarAllocator) :
  consistent self → consistent (getitems vals self).2.
Proof.
  revert self. induction vals as [|val vals IH]; intros self Hc; [done|].
  simpl. pose proof (getitem_consistent val self Hc) as H1.
  destruct (getitem val self) as [var self1]. simpl in H1.
  specialize (IH self1 H1). by destruct (getitems vals self1).
Qed.

Lemma inputs_of_consistent (descr : list (string * (list Z * list Z)))
  (self : SizeVarAllocator) :
  consistent self → consistent (inputs_of descr self).2.
Proof.
  revert self.
  induction descr as [|[name [sizes strides]] descr IH]; intros self Hc;
    [done|].
  simpl. pose proof (getitems_consistent sizes self Hc) as H1.
  destruct (getitems sizes self) as [size self1]. simpl in H1.
  pose proof (getitems_consistent strides self1 H1) as H2.
  destruct (getitems strides self1) as [stride self2]. simpl in H2.
  specialize (IH self2 H2). by destruct (inputs_of descr self2).
Qed.

(** In a consistent allocator the variables have distinct names. *)
Lemma consistent_size (self : SizeVarAllocator) :
  consistent self → size (symbolic_vars self) = length (var_to_val self).
Proof.
  intros [Hkeys _ _]. unfold symbolic_vars.
  change (map (λ kv : Expr * Z, str kv.1) (var_to_val self))
    with ((str ∘ fst) <$> var_to_val self).
  rewrite list_fmap_compose, Hkeys, size_list_to_set.
  - by rewrite !length_fmap, length_seq.
  - rewrite <- list_fmap_compose. apply NoDup_fmap_2; [|apply NoDup_seq].
    intros i j H. simpl in H. apply (inj (String.app _)) in H.
    by apply (inj pretty) in H.
Qed.

(** X10.  When the sizes and strides of the graph inputs are obtained
    from a new allocator, [codegen] on these inputs returns: every
    variable the allocator minted is the size or the stride of some input,
    so each one gets its binding -- as many lines as variables -- and the
    final assertion passes. *)
Theorem codegen_binds_allocated_inputs (prefix : string)
  (zero_one_const : bool) (descr : list (string * (list Z * list Z)))
  (code : list string) :
  let inputs := (inputs_of descr (init prefix zero_one_const)).1 in
  let self := (inputs_of descr (init prefix zero_one_const)).2 in
  (codegen self code inputs).2 = Ok tt
  ∧ length (codegen self code inputs).1
    = (length code + length (var_to_val self))%nat.
Proof.
  intros inputs self.
  pose proof (inputs_of_symbolic_vars descr (init prefix zero_one_const))
    as Hsub.
  fold inputs self in Hsub.
  assert (Hinit : symbolic_vars (init prefix zero_one_const) = ∅) by done.
  rewrite Hinit in Hsub.
  assert (Hok : (codegen self code inputs).2 = Ok tt).
  { pose proof (codegen_eq self code inputs) as Heq. simpl in Heq.
    rewrite Heq. simpl. rewrite decide_True; [done|]. set_solver. }
  split; [done|].
  rewrite <- (consistent_size self)
    by apply inputs_of_consistent, init_consistent.
  pose proof (codegen_eq self code inputs) as Heq. simpl in Heq.
  rewrite Heq in Hok |- *. simpl in *. clear Heq.
  rewrite length_app, length_fmap. f_equal.
  assert (Hlen : length (bound (symbolic_vars self) (all_candidates inputs))
                 = size (symbolic_vars self
                         ∩ list_to_set (shape <$> all_candidates inputs)
                         : gset string)).
  { rewrite <- bound_shapes, size_list_to_set by apply bound_NoDup.
    by rewrite length_fmap. }
  rewrite Hlen. f_equal. set_solver.
Qed.

End CodegenCount.

Section CodegenExamples.
Import Shapes Spec Alloc.

(** Two inputs that share the size 7: three variables, three bindings,
    the shared one bound from the first input. *)
Example codegen_allocated :
  let r := inputs_of [("x", ([7; 9], [9; 1])); ("y", ([7; 5], [5; 1]))]
             (init "s" true) in
  codegen r.2 [] r.1
  = (["s0 = x.size(0)"; "s1 = x.size(1)"; "s2 = y.size(1)"], Ok tt).
Proof. vm_compute. reflexivity. Qed.

End CodegenExamples.

(** ** [TritonKernel]: the range trees *)

Section RangeTreeProps.
Import Triton Ranges.
Context {E Args : Type}.
Context `{!SymPy E, !Common E Args, !RangeEnv E Args, !EqDecision E}.
Implicit Types (tree : range_tree E) (lengths : list E)
  (self : RangedKernel E Args).

Lemma tree_get_set (sv : E) (entry : E * range_tree E)
  (its : list (E * (E * range_tree E))) :
  tree_get sv (tree_set sv entry its) = Some entry.
Proof.
  induction its as [|[size old] its IH]; simpl.
  - by rewrite decide_True.
  - destruct (decide (size = sv)) as [->|Hne]; simpl.
    + by rewrite decide_True.
    + by rewrite decide_False.
Qed.

Lemma tree_set_set (sv : E) (entry entry' : E * range_tree E)
  (its : list (E * (E * range_tree E))) :
  tree_set sv entry' (tree_set sv entry its) = tree_set sv entry' its.
Proof.
  induction its as [|[size old] its IH]; simpl.
  - by rewrite decide_True.
  - destruct (decide (size = sv)) as [->|Hne]; simpl.
    + by rewrite decide_True.
    + by rewrite decide_False, IH.
Qed.

Lemma tree_set_get (sv : E) (entry : E * range_tree E)
  (its : list (E * (E * range_tree E))) :
  tree_get sv its = Some entry → tree_set sv entry its = its.
Proof.
  induction its as [|[size old] its IH]; simpl; [done|].
  destruct (decide (size = sv)) as [->|Hne].
  - by intros [= ->].
  - intros H. by rewrite IH.
Qed.

Lemma tree_get_set_ne (sv sv' : E) (entry : E * range_tree E)
  (its : list (E * (E * range_tree E))) :
  sv ≠ sv' → tree_get sv' (tree_set sv entry its) = tree_get sv' its.
Proof.
  intros Hne. induction its as [|[size old] its IH]; simpl.
  - by rewrite decide_False.
  - destruct (decide (size = sv)) as [->|Hne']; simpl.
    + by rewrite !decide_False.
    + destruct (decide (size = sv')); [done | apply IH].
Qed.

Lemma add_path_cons_hit (prefix : string) (sv sym : E) lengths tree
  (subtree : range_tree E) (count : nat) :
  tree_get sv (items tree) = Some (sym, subtree) →
  add_path prefix (sv :: lengths) tree count
  = let r := add_path prefix lengths subtree count in
    (sym :: r.1.1.1, r.1.1.2,
     RangeTree (tree_set sv (sym, r.1.2) (items tree)), r.2).
Proof.
  intros H. simpl. rewrite H.
  by destruct (add_path prefix lengths subtree count) as [[[? ?] ?] ?].
Qed.

Lemma add_path_cons_miss (prefix : string) (sv : E) lengths tree
  (count : nat) :
  tree_get sv (items tree) = None →
  add_path prefix (sv :: lengths) tree count
  = let sym := symbol (prefix +:+ pretty count) in
    let r := add_path prefix lengths empty_tree (S count) in
    (sym :: r.1.1.1, sym :: r.1.1.2,
     RangeTree (tree_set sv (sym, r.1.2) (items tree)), r.2).
Proof.
  intros H. simpl. rewrite H.
  by destruct (add_path prefix lengths empty_tree (S count))
    as [[[? ?] ?] ?].
Qed.

(** One variable per size. *)
Lemma add_path_length (prefix : string) lengths tree (count : nat) :
  length (add_path prefix lengths tree count).1.1.1 = length lengths.
Proof.
  revert tree count. induction lengths as [|sv lengths IH]; intros tree count;
    [done|].
  destruct (tree_get sv (items tree)) as [[sym subtree]|] eqn:Hget.
  - rewrite (add_path_cons_hit _ _ _ _ _ _ _ Hget). simpl. by rewrite IH.
  - rewrite (add_path_cons_miss _ _ _ _ _ Hget). simpl. by rewrite IH.
Qed.

(** The new variables are numbered from the counter on, and the counter
    moves past them. *)
Lemma add_path_new (prefix : string) lengths tree (count : nat) :
  let r := add_path prefix lengths tree count in
  r.1.1.2
  = (λ i : nat, symbol (prefix +:+ pretty i)) <$> seq count (length r.1.1.2)
  ∧ r.2 = (count + length r.1.1.2)%nat.
Proof.
  revert tree count. induction lengths as [|sv lengths IH]; intros tree count.
  - simpl. split; [done | lia].
  - destruct (tree_get sv (items tree)) as [[sym subtree]|] eqn:Hget.
    + rewrite (add_path_cons_hit _ _ _ _ _ _ _ Hget). simpl. apply IH.
    + rewrite (add_path_cons_miss _ _ _ _ _ Hget). simpl.
      destruct (IH empty_tree (S count)) as [Hnew Hcount]. simpl in *.
      split; [f_equal; exact Hnew | lia].
Qed.

(** *** Paths that are in the tree *)

Lemma resolved_nil (prefix : string) tree : resolved prefix [] tree [].
Proof. by intros count. Qed.

Lemma resolved_cons (prefix : string) (sv : E) lengths tree (vars : list E) :
  resolved prefix (sv :: lengths) tree vars ↔
  ∃ sym subtree vars',
    tree_get sv (items tree) = Some (sym, subtree)
    ∧ vars = sym :: vars'
    ∧ resolved prefix lengths subtree vars'.
Proof.
  split.
  - intros Hres.
    destruct (tree_get sv (items tree)) as [[sym subtree]|] eqn:Hget.
    + exists sym, subtree, (tail vars).
      split; [done|].
      pose proof (Hres 0%nat) as H0.
      rewrite (add_path_cons_hit _ _ _ _ _ _ _ Hget) in H0. simpl in H0.
      injection H0 as Hv _ _ _. split; [by rewrite <- Hv|].
      intros count. specialize (Hres count).
      rewrite (add_path_cons_hit _ _ _ _ _ _ _ Hget) in Hres. simpl in Hres.
      destruct (add_path prefix lengths subtree count)
        as [[[vs new] sub'] count'] eqn:Hr. simpl in Hres.
      injection Hres as Hvs Hnew Htree Hcount. subst.
      assert (Hsub : sub' = subtree).
      { assert (Hg : tree_get sv (items tree) = Some (sym, sub')).
        { rewrite <- Htree at 1. simpl. apply tree_get_set. }
        congruence. }
      by subst.
    + exfalso. specialize (Hres 0%nat).
      rewrite (add_path_cons_miss _ _ _ _ _ Hget) in Hres. simpl in Hres.
      discriminate.
  - intros (sym & subtree & vars' & Hget & -> & Hres) count.
    rewrite (add_path_cons_hit _ _ _ _ _ _ _ Hget), (Hres count). simpl.
    rewrite (tree_set_get _ _ _ Hget). by destruct tree.
Qed.

(** After a path has been added it is in the tree. *)
Lemma add_path_resolved (prefix : string) lengths tree (count : nat) :
  let r := add_path prefix lengths tree count in
  resolved prefix lengths r.1.2 r.1.1.1.
Proof.
  revert tree count. induction lengths as [|sv lengths IH]; intros tree count.
  - apply resolved_nil.
  - destruct (tree_get sv (items tree)) as [[sym subtree]|] eqn:Hget.
    + rewrite (add_path_cons_hit _ _ _ _ _ _ _ Hget). simpl.
      apply resolved_cons. eexists _, _, _.
      split; [apply tree_get_set|]. split; [done | apply IH].
    + rewrite (add_path_cons_miss _ _ _ _ _ Hget). simpl.
      apply resolved_cons. eexists _, _, _.
      split; [apply tree_get_set|]. split; [done | apply IH].
Qed.

(** A path that is in the tree stays in it, with the same variables,
    whatever path is added. *)
Lemma add_path_persists (prefix : string) lengths tree (vars : list E)
  lengths' (count : nat) :
  resolved prefix lengths tree vars →
  resolved prefix lengths (add_path prefix lengths' tree count).1.2 vars.
Proof.
  revert tree vars lengths' count.
  induction lengths as [|sv lengths IH]; intros tree vars lengths' count Hres.
  - specialize (Hres 0%nat). injection Hres as <-. apply resolved_nil.
  - apply resolved_cons in Hres as (sym & subtree & vars' & Hget & -> & Hres).
    destruct lengths' as [|sv' lengths']; simpl.
    { apply resolved_cons. by eexists _, _, _. }
    destruct (decide (sv' = sv)) as [->|Hne].
    + rewrite Hget.
      pose proof (IH subtree vars' lengths' count Hres) as Hsub.
      destruct (add_path prefix lengths' subtree count)
        as [[[vs new] sub'] count']. simpl in *.
      apply resolved_cons. eexists _, _, _.
      split; [apply tree_get_set | done].
    + assert (Hkeep : ∀ entry, tree_get sv (tree_set sv' entry (items tree))
                               = Some (sym, subtree))
        by (intros; by rewrite tree_get_set_ne).
      destruct (tree_get sv' (items tree)) as [[sym' subtree']|].
      * destruct (add_path prefix lengths' subtree' count)
          as [[[vs new] sub'] count']. simpl.
        apply resolved_cons. eexists _, _, _. split; [apply Hkeep | done].
      * destruct (add_path prefix lengths' empty_tree (S count))
          as [[[vs new] sub'] count']. simpl.
        apply resolved_cons. eexists _, _, _. split; [apply Hkeep | done].
Qed.

(** The beginning of a path that is in the tree is in the tree. *)
Lemma resolved_app (prefix : string) lengths lengths' tree (vars : list E) :
  resolved prefix (lengths ++ lengths') tree vars →
  resolved prefix lengths tree (take (length lengths) vars).
Proof.
  revert tree vars. induction lengths as [|sv lengths IH]; intros tree vars.
  - intros _. rewrite take_0. apply resolved_nil.
  - simpl. intros (sym & subtree & vars' & Hget & -> & Hres)%resolved_cons.
    simpl. apply resolved_cons. eexists _, _, _.
    split; [done|]. split; [done|]. by apply IH.
Qed.

(** A path that begins with a path of the tree begins with its
    variables. *)
Lemma add_path_shares_prefix (prefix : string) lengths lengths' tree
  (vars : list E) (count : nat) :
  resolved prefix lengths tree vars →
  take (length lengths)
    (add_path prefix (lengths ++ lengths') tree count).1.1.1 = vars.
Proof.
  revert tree vars count.
  induction lengths as [|sv lengths IH]; intros tree vars count Hres.
  - specialize (Hres 0%nat). injection Hres as <-. by rewrite take_0.
  - apply resolved_cons in Hres as (sym & subtree & vars' & Hget & -> & Hres).
    rewrite <- app_comm_cons.
    rewrite (add_path_cons_hit _ _ _ _ _ _ _ Hget). simpl. f_equal.
    by apply IH.
Qed.

(** On an empty tree every size gets a new variable. *)
Lemma add_path_empty (prefix : string) lengths (count : nat) :
  let r := add_path prefix lengths empty_tree count in
  let names := (λ i : nat, symbol (prefix +:+ pretty i))
                 <$> seq count (length lengths) in
  r.1.1.1 = names ∧ r.1.1.2 = names ∧ r.2 = (count + length lengths)%nat.
Proof.
  revert count. induction lengths as [|sv lengths IH]; intros count.
  - simpl. repeat split; lia.
  - rewrite add_path_cons_miss by done. simpl.
    destruct (IH (S count)) as (Hv & Hn & Hc). simpl in *.
    rewrite Hv, Hn, Hc. repeat split; lia.
Qed.

(** *** [add_ranges], [add_reduction_ranges] and [set_ranges] *)

Lemma add_ranges_eq lengths self :
  let r := add_path "i" lengths (iter_range_tree self) (iter_vars_count self) in
  (add_ranges lengths self).1 = r.1.1.1
  ∧ iter_vars (kernel (add_ranges lengths self).2)
    = iter_vars (kernel self) ++ r.1.1.2
  ∧ reduction_vars (kernel (add_ranges lengths self).2)
    = reduction_vars (kernel self)
  ∧ iter_range_tree (add_ranges lengths self).2 = r.1.2
  ∧ reduction_range_tree (add_ranges lengths self).2
    = reduction_range_tree self
  ∧ iter_vars_count (add_ranges lengths self).2 = r.2.
Proof.
  unfold add_ranges.
  by destruct (add_path "i" lengths (iter_range_tree self)
                 (iter_vars_count self)) as [[[vs new] tree'] count'].
Qed.

Lemma add_reduction_ranges_eq lengths self :
  let r := add_path "r" lengths (reduction_range_tree self)
             (iter_vars_count self) in
  (add_reduction_ranges lengths self).1 = r.1.1.1
  ∧ iter_vars (kernel (add_reduction_ranges lengths self).2)
    = iter_vars (kernel self)
  ∧ reduction_vars (kernel (add_reduction_ranges lengths self).2)
    = reduction_vars (kernel self) ++ r.1.1.2
  ∧ iter_range_tree (add_reduction_ranges lengths self).2
    = iter_range_tree self
  ∧ reduction_range_tree (add_reduction_ranges lengths self).2 = r.1.2
  ∧ iter_vars_count (add_reduction_ranges lengths self).2 = r.2.
Proof.
  unfold add_reduction_ranges.
  by destruct (add_path "r" lengths (reduction_range_tree self)
                 (iter_vars_count self)) as [[[vs new] tree'] count'].
Qed.

Lemma set_ranges_eq lengths reduction_lengths self :
  let r1 := add_ranges lengths self in
  let r2 := add_reduction_ranges reduction_lengths r1.2 in
  set_ranges lengths reduction_lengths self = ((r1.1, r2.1), r2.2).
Proof.
  unfold set_ranges. destruct (add_ranges lengths self) as [v1 self1].
  simpl. by destruct (add_reduction_ranges reduction_lengths self1).
Qed.

(** Paths of either tree survive a [set_ranges]. *)
Lemma set_ranges_persists lengths reduction_lengths self
  (ls rs : list E) (vs rvs : list E) :
  resolved "i" ls (iter_range_tree self) vs →
  resolved "r" rs (reduction_range_tree self) rvs →
  let self' := (set_ranges lengths reduction_lengths self).2 in
  resolved "i" ls (iter_range_tree self') vs
  ∧ resolved "r" rs (reduction_range_tree self') rvs.
Proof.
  intros Hi Hr. rewrite set_ranges_eq. simpl.
  destruct (add_ranges_eq lengths self) as (_ & _ & _ & Ht1 & Hrt1 & Hc1).
  destruct (add_reduction_ranges_eq reduction_lengths
              (add_ranges lengths self).2) as (_ & _ & _ & Ht2 & Hrt2 & _).
  rewrite Ht2, Ht1, Hrt2, Hrt1. split; by apply add_path_persists.
Qed.

Lemma set_ranges_all_persists (calls : list (list E * list E)) self
  (ls rs : list E) (vs rvs : list E) :
  resolved "i" ls (iter_range_tree self) vs →
  resolved "r" rs (reduction_range_tree self) rvs →
  resolved "i" ls (iter_range_tree (set_ranges_all calls self)) vs
  ∧ resolved "r" rs (reduction_range_tree (set_ranges_all calls self)) rvs.
Proof.
  revert self. induction calls as [|[l r] calls IH]; intros self Hi Hr;
    [done|].
  simpl. destruct (set_ranges_persists l r self ls rs vs rvs Hi Hr).
  by apply IH.
Qed.

(** After a [set_ranges] its two paths are in the trees. *)
Lemma set_ranges_resolved lengths reduction_lengths self :
  let r := set_ranges lengths reduction_lengths self in
  resolved "i" lengths (iter_range_tree r.2) r.1.1
  ∧ resolved "r" reduction_lengths (reduction_range_tree r.2) r.1.2.
Proof.
  rewrite set_ranges_eq. simpl.
  destruct (add_ranges_eq lengths self) as (Hv1 & _ & _ & Ht1 & _ & _).
  destruct (add_reduction_ranges_eq reduction_lengths
              (add_ranges lengths self).2) as (Hv2 & _ & _ & Ht2 & Hrt2 & _).
  rewrite Ht2, Ht1, Hrt2, Hv1, Hv2.
  split; apply add_path_resolved.
Qed.

(** What [set_ranges] does on paths that are in the trees. *)
Lemma set_ranges_of_resolved lengths reduction_lengths self (vs rvs : list E) :
  resolved "i" lengths (iter_range_tree self) vs →
  resolved "r" reduction_lengths (reduction_range_tree self) rvs →
  let r := set_ranges lengths reduction_lengths self in
  r.1 = (vs, rvs)
  ∧ iter_vars (kernel r.2) = iter_vars (kernel self)
  ∧ reduction_vars (kernel r.2) = reduction_vars (kernel self)
  ∧ iter_range_tree r.2 = iter_range_tree self
  ∧ reduction_range_tree r.2 = reduction_range_tree self
  ∧ iter_vars_count r.2 = iter_vars_count self.
Proof.
  intros Hi Hr. rewrite set_ranges_eq. simpl.
  destruct (add_ranges_eq lengths self)
    as (Hv1 & Hiv1 & Hrv1 & Ht1 & Hrt1 & Hc1).
  destruct (add_reduction_ranges_eq reduction_lengths
              (add_ranges lengths self).2)
    as (Hv2 & Hiv2 & Hrv2 & Ht2 & Hrt2 & Hc2).
  rewrite (Hi (iter_vars_count self)) in Hv1, Hiv1, Ht1, Hc1. simpl in *.
  rewrite Hrt1, Hc1, (Hr (iter_vars_count self)) in Hv2, Hrv2, Hrt2, Hc2.
  simpl in *.
  rewrite Hv1, Hv2, Hiv2, Hiv1, Hrv2, Hrv1, Ht2, Ht1, Hrt2, Hc2, !app_nil_r.
  done.
Qed.

(** X11.  [set_ranges] returns one iteration variable per size and one
    reduction variable per reduction size, whatever the trees hold. *)
Theorem set_ranges_lengths lengths reduction_lengths self :
  length (set_ranges lengths reduction_lengths self).1.1 = length lengths
  ∧ length (set_ranges lengths reduction_lengths self).1.2
    = length reduction_lengths.
Proof.
  rewrite set_ranges_eq. simpl.
  destruct (add_ranges_eq lengths self) as (-> & _).
  destruct (add_reduction_ranges_eq reduction_lengths
              (add_ranges lengths self).2) as (-> & _).
  split; apply add_path_length.
Qed.

(** X12.  Once [set_ranges] has been called with two lists of sizes,
    every later call with the same lists -- directly after, or after any
    other [set_ranges] calls on the kernel -- returns the same variables,
    and mints nothing: the variable lists, the trees and the counter stay
    as they were before that call. *)
Theorem set_ranges_reuses lengths reduction_lengths self
  (calls : list (list E * list E)) :
  let first := set_ranges lengths reduction_lengths self in
  let self' := set_ranges_all calls first.2 in
  let again := set_ranges lengths reduction_lengths self' in
  again.1 = first.1
  ∧ iter_vars (kernel again.2) = iter_vars (kernel self')
  ∧ reduction_vars (kernel again.2) = reduction_vars (kernel self')
  ∧ iter_range_tree again.2 = iter_range_tree self'
  ∧ reduction_range_tree again.2 = reduction_range_tree self'
  ∧ iter_vars_count again.2 = iter_vars_count self'.
Proof.
  intros first self' again.
  destruct (set_ranges_resolved lengths reduction_lengths self) as [Hi Hr].
  destruct (set_ranges_all_persists calls _ _ _ _ _ Hi Hr) as [Hi' Hr'].
  destruct (set_ranges_of_resolved _ _ _ _ _ Hi' Hr') as (Hv & Hrest).
  split; [|exact Hrest].
  unfold again, self', first. rewrite Hv. by destruct (set_ranges _ _ self).1.
Qed.

(** X13.  Size lists that begin alike share the variables of their common
    beginning: after a call with [common ++ rest], a later call with
    [common ++ rest'] returns, for the sizes of [common], the variables
    the first call returned, in the iteration and in the reduction tree. *)
Theorem set_ranges_shares_prefix (common rest rest' : list E)
  (rcommon rrest rrest' : list E) self (calls : list (list E * list E)) :
  let first := set_ranges (common ++ rest) (rcommon ++ rrest) self in
  let self' := set_ranges_all calls first.2 in
  let later := set_ranges (common ++ rest') (rcommon ++ rrest') self' in
  take (length common) later.1.1 = take (length common) first.1.1
  ∧ take (length rcommon) later.1.2 = take (length rcommon) first.1.2.
Proof.
  intros first self' later.
  destruct (set_ranges_resolved (common ++ rest) (rcommon ++ rrest) self)
    as [Hi Hr].
  apply resolved_app in Hi, Hr.
  destruct (set_ranges_all_persists calls _ _ _ _ _ Hi Hr) as [Hi' Hr'].
  fold first in Hi', Hr'. fold self' in Hi', Hr'.
  unfold later. rewrite set_ranges_eq. simpl.
  destruct (add_ranges_eq (common ++ rest') self')
    as (-> & _ & _ & Ht1 & Hrt1 & _).
  destruct (add_reduction_ranges_eq (rcommon ++ rrest')
              (add_ranges (common ++ rest') self').2) as (-> & _).
  rewrite Hrt1. split.
  - by apply add_path_shares_prefix.
  - by apply add_path_shares_prefix.
Qed.

(** X14.  On a new kernel, [set_ranges] numbers the variables in one
    sequence across the two trees: the iteration variables are [i0],
    [i1], ... and the reduction variables continue the count, and these
    are the kernel's lists of iteration and reduction variables. *)
Theorem set_ranges_init (numel : E) (reduction_numel : option E)
  lengths reduction_lengths :
  let r := set_ranges lengths reduction_lengths (init numel reduction_numel) in
  let n := length lengths in
  let m := length reduction_lengths in
  r.1.1 = (λ i : nat, symbol ("i" +:+ pretty i)) <$> seq 0 n
  ∧ r.1.2 = (λ i : nat, symbol ("r" +:+ pretty i)) <$> seq n m
  ∧ iter_vars (kernel r.2) = r.1.1
  ∧ reduction_vars (kernel r.2) = r.1.2
  ∧ iter_vars_count r.2 = (n + m)%nat.
Proof.
  intros r n m. unfold r. rewrite set_ranges_eq. simpl.
  set (self0 := init numel reduction_numel).
  destruct (add_ranges_eq lengths self0)
    as (Hv1 & Hiv1 & Hrv1 & Ht1 & Hrt1 & Hc1).
  destruct (add_reduction_ranges_eq reduction_lengths
              (add_ranges lengths self0).2)
    as (Hv2 & Hiv2 & Hrv2 & Ht2 & Hrt2 & Hc2).
  destruct (add_path_empty "i" lengths 0) as (Ha & Hb & Hc).
  simpl in Hv1, Hiv1, Ht1, Hc1.
  change (iter_range_tree self0) with (@empty_tree E) in *.
  change (iter_vars_count self0) with 0%nat in *.
  rewrite Ha in Hv1. rewrite Hb in Hiv1. rewrite Hc in Hc1.
  rewrite Hrt1, Hc1 in Hv2, Hrv2, Hc2.
  change (reduction_range_tree self0) with (@empty_tree E) in *.
  destruct (add_path_empty "r" reduction_lengths (0 + length lengths))
    as (Ha' & Hb' & Hc').
  rewrite Ha' in Hv2. rewrite Hb' in Hrv2. rewrite Hc' in Hc2.
  rewrite Hv1, Hv2, Hiv2, Hiv1, Hrv2, Hrv1, Hc2. done.
Qed.

(** *** The variables of a kernel *)

Lemma tree_vars_cons (sv var : E) (subtree : range_tree E)
  (its : list (E * (E * range_tree E))) :
  tree_vars (RangeTree ((sv, (var, subtree)) :: its))
  = var :: tree_vars subtree ++ tree_vars (RangeTree its).
Proof. done. Qed.

Lemma tree_vars_get (sv sym : E) (subtree : range_tree E)
  (its : list (E * (E * range_tree E))) (v : E) :
  tree_get sv its = Some (sym, subtree) →
  v = sym ∨ v ∈ tree_vars subtree → v ∈ tree_vars (RangeTree its).
Proof.
  induction its as [|[size [var sub]] its IH]; simpl tree_get; [done|].
  rewrite tree_vars_cons, elem_of_cons, elem_of_app.
  destruct (decide (size = sv)) as [->|Hne].
  - intros [= -> ->]. tauto.
  - intros Hget Hv. right. right. by apply IH.
Qed.

Lemma tree_vars_set (sv sym : E) (subtree : range_tree E)
  (its : list (E * (E * range_tree E))) (v : E) :
  v ∈ tree_vars (RangeTree (tree_set sv (sym, subtree) its)) →
  v = sym ∨ v ∈ tree_vars subtree ∨ v ∈ tree_vars (RangeTree its).
Proof.
  induction its as [|[size [var sub]] its IH]; simpl tree_set.
  - rewrite tree_vars_cons, elem_of_cons, elem_of_app. tauto.
  - destruct (decide (size = sv)) as [->|Hne];
      rewrite !tree_vars_cons, !elem_of_cons, !elem_of_app.
    + tauto.
    + intros [->|[H|H]]; [tauto | tauto |].
      destruct (IH H) as [?|[?|?]]; tauto.
Qed.

Lemma tree_vars_set_new (sv sym : E) (subtree : range_tree E)
  (its : list (E * (E * range_tree E))) (v : E) :
  v = sym ∨ v ∈ tree_vars subtree →
  v ∈ tree_vars (RangeTree (tree_set sv (sym, subtree) its)).
Proof.
  intros Hv. apply (tree_vars_get sv sym subtree); [|done].
  apply tree_get_set.
Qed.

Lemma tree_vars_set_old (sv sym : E) (subtree subtree' : range_tree E)
  (its : list (E * (E * range_tree E))) (v : E) :
  (∀ sym0 subtree0, tree_get sv its = Some (sym0, subtree0) →
     sym0 = sym ∧ ∀ w, w ∈ tree_vars subtree0 → w ∈ tree_vars subtree') →
  v ∈ tree_vars (RangeTree its) →
  v ∈ tree_vars (RangeTree (tree_set sv (sym, subtree') its)).
Proof.
  induction its as [|[size [var sub]] its IH]; simpl tree_set; simpl tree_get.
  - by intros _ ?%elem_of_nil.
  - destruct (decide (size = sv)) as [->|Hne];
      rewrite !tree_vars_cons, !elem_of_cons, !elem_of_app.
    + intros Hold. destruct (Hold var sub eq_refl) as [-> Hsub].
      intros [?|[?|?]]; auto.
    + intros Hold [?|[?|?]]; auto.
Qed.

(** The variables of the tree after a path has been added are those it
    had and the new ones; the variables returned are among them. *)
Lemma add_path_tree_vars (prefix : string) lengths tree (count : nat) :
  let r := add_path prefix lengths tree count in
  ∀ v, (v ∈ tree_vars r.1.2 ↔ v ∈ tree_vars tree ∨ v ∈ r.1.1.2)
       ∧ (v ∈ r.1.1.1 → v ∈ tree_vars r.1.2).
Proof.
  revert tree count.
  induction lengths as [|sv lengths IH]; intros [its] count.
  - simpl. intros v. split; [|by intros ?%elem_of_nil].
    split; [by left|]. by intros [?|?%elem_of_nil].
  - destruct (tree_get sv its) as [[sym subtree]|] eqn:Hget.
    + rewrite (add_path_cons_hit _ _ _ _ (RangeTree its) _ _ Hget).
      cbn [fst snd items].
      pose proof (IH subtree count) as IHs. cbn zeta in IHs.
      set (r := add_path prefix lengths subtree count) in *.
      intros v. destruct (IHs v) as [Hiff Hret].
      split; [split|].
      * intros [->|[H|H]]%tree_vars_set.
        -- left. apply (tree_vars_get sv sym subtree); [done | by left].
        -- apply Hiff in H as [H|H]; [|by right].
           left. apply (tree_vars_get sv sym subtree); [done | by right].
        -- by left.
      * intros [H|H].
        -- apply (tree_vars_set_old sv sym subtree); [|done].
           intros sym0 subtree0 Hget0. rewrite Hget in Hget0.
           injection Hget0 as <- <-. split; [done|].
           intros w Hw. apply (proj1 (IHs w)). by left.
        -- apply tree_vars_set_new. right. apply Hiff. by right.
      * intros [->|H]%elem_of_cons; apply tree_vars_set_new; auto.
    + rewrite (add_path_cons_miss _ _ _ (RangeTree its) _ Hget).
      cbn [fst snd items].
      pose proof (IH empty_tree (S count)) as IHs. cbn zeta in IHs.
      set (r := add_path prefix lengths empty_tree (S count)) in *.
      set (sym := symbol (prefix +:+ pretty count)).
      intros v. destruct (IHs v) as [Hiff Hret].
      split; [split|].
      * intros [->|[H|H]]%tree_vars_set.
        -- right. by left.
        -- apply Hiff in H as [H%elem_of_nil|H]; [done|]. right. by right.
        -- by left.
      * intros [H|[->|H]%elem_of_cons].
        -- apply (tree_vars_set_old sv sym empty_tree); [|done].
           intros sym0 subtree0 Hget0. congruence.
        -- apply tree_vars_set_new. by left.
        -- apply tree_vars_set_new. right. apply Hiff. by right.
      * intros [->|H]%elem_of_cons; apply tree_vars_set_new; auto.
Qed.

Lemma init_well_numbered (numel : E) (reduction_numel : option E) :
  well_numbered (init numel reduction_numel).
Proof.
  split; simpl; [done | done |]. by exists [], [].
Qed.

Lemma add_ranges_well_numbered lengths self :
  well_numbered self → well_numbered (add_ranges lengths self).2.
Proof.
  intros [Hi Hr (ns & rs & Hns & Hrs & Hperm)].
  destruct (add_ranges_eq lengths self)
    as (_ & Hiv & Hrv & Ht & Hrt & Hc).
  pose proof (add_path_tree_vars "i" lengths (iter_range_tree self)
                (iter_vars_count self)) as Htv.
  destruct (add_path_new "i" lengths (iter_range_tree self)
              (iter_vars_count self)) as [Hnew Hcount].
  cbn zeta in *.
  set (r := add_path "i" lengths (iter_range_tree self)
              (iter_vars_count self)) in *.
  split.
  - intros v. rewrite Ht, Hiv, elem_of_app, <- Hi. apply Htv.
  - intros v. by rewrite Hrt, Hrv.
  - exists (ns ++ seq (iter_vars_count self) (length r.1.1.2)), rs.
    rewrite Hiv, Hrv, Hc, Hcount, fmap_app, <- Hnew, <- Hns.
    split; [done|]. split; [done|].
    rewrite seq_app, <- Hperm. simpl. rewrite <- !app_assoc.
    f_equiv. apply Permutation_app_comm.
Qed.

Lemma add_reduction_ranges_well_numbered lengths self :
  well_numbered self → well_numbered (add_reduction_ranges lengths self).2.
Proof.
  intros [Hi Hr (ns & rs & Hns & Hrs & Hperm)].
  destruct (add_reduction_ranges_eq lengths self)
    as (_ & Hiv & Hrv & Ht & Hrt & Hc).
  pose proof (add_path_tree_vars "r" lengths (reduction_range_tree self)
                (iter_vars_count self)) as Htv.
  destruct (add_path_new "r" lengths (reduction_range_tree self)
              (iter_vars_count self)) as [Hnew Hcount].
  cbn zeta in *.
  set (r := add_path "r" lengths (reduction_range_tree self)
              (iter_vars_count self)) in *.
  split.
  - intros v. by rewrite Ht, Hiv.
  - intros v. rewrite Hrt, Hrv, elem_of_app, <- Hr. apply Htv.
  - exists ns, (rs ++ seq (iter_vars_count self) (length r.1.1.2)).
    rewrite Hiv, Hrv, Hc, Hcount, fmap_app, <- Hnew, <- Hrs.
    split; [done|]. split; [done|].
    by rewrite seq_app, <- Hperm, <- !app_assoc.
Qed.

Lemma set_ranges_well_numbered lengths reduction_lengths self :
  well_numbered self →
  well_numbered (set_ranges lengths reduction_lengths self).2.
Proof.
  intros H. rewrite set_ranges_eq. simpl.
  by apply add_reduction_ranges_well_numbered, add_ranges_well_numbered.
Qed.

Lemma set_ranges_all_well_numbered (calls : list (list E * list E)) self :
  well_numbered self → well_numbered (set_ranges_all calls self).
Proof.
  revert self. induction calls as [|call calls IH]; intros self H; [done|].
  simpl. by apply IH, set_ranges_well_numbered.
Qed.

(** X15.  In a kernel that has gone through any [set_ranges] calls since
    its creation, the iteration variables are named [i] and the reduction
    variables [r] followed by a number, and across both lists every number
    below the counter is used exactly once: no two variables of a kernel
    share a number. *)
Theorem kernel_vars_numbered (numel : E) (reduction_numel : option E)
  (calls : list (list E * list E)) :
  let self := set_ranges_all calls (init numel reduction_numel) in
  ∃ ns rs : list nat,
    iter_vars (kernel self) = (λ i : nat, symbol ("i" +:+ pretty i)) <$> ns
    ∧ reduction_vars (kernel self)
      = (λ i : nat, symbol ("r" +:+ pretty i)) <$> rs
    ∧ ns ++ rs ≡ₚ seq 0 (iter_vars_count self).
Proof.
  intros self.
  by destruct (set_ranges_all_well_numbered calls _
                 (init_well_numbered numel reduction_numel)) as [_ _ ?].
Qed.

(** X16.  In such a kernel every variable that [set_ranges] returns is,
    after the call, one of the kernel's iteration variables (for the
    sizes) or reduction variables (for the reduction sizes): these are
    the variables [indexing] replaces by 0 to split an index. *)
Theorem set_ranges_returns_kernel_vars (numel : E)
  (reduction_numel : option E) (calls : list (list E * list E))
  lengths reduction_lengths :
  let self := set_ranges_all calls (init numel reduction_numel) in
  let r := set_ranges lengths reduction_lengths self in
  (∀ v, v ∈ r.1.1 → v ∈ iter_vars (kernel r.2))
  ∧ (∀ v, v ∈ r.1.2 → v ∈ reduction_vars (kernel r.2)).
Proof.
  intros self r.
  pose proof (set_ranges_all_well_numbered calls _
                (init_well_numbered numel reduction_numel)) as Hwf.
  fold self in Hwf.
  pose proof (set_ranges_well_numbered lengths reduction_lengths self Hwf)
    as [Hi Hr _].
  fold r in Hi, Hr.
  destruct (set_ranges_resolved lengths reduction_lengths self) as [Rei Rer].
  fold r in Rei, Rer.
  split; intros v Hv.
  - apply Hi.
    pose proof (add_path_tree_vars "i" lengths (iter_range_tree r.2) 0) as Htv.
    cbn zeta in Htv. rewrite (Rei 0%nat) in Htv. simpl in Htv.
    by apply Htv.
  - apply Hr.
    pose proof (add_path_tree_vars "r" reduction_lengths
                  (reduction_range_tree r.2) 0) as Htv.
    cbn zeta in Htv. rewrite (Rer 0%nat) in Htv. simpl in Htv.
    by apply Htv.
Qed.

(** *** The index prologue *)

Lemma range_tree_ind' (P : range_tree E → Prop) :
  (∀ its, Forall (λ item, P item.2.2) its → P (RangeTree its)) →
  ∀ tree, P tree.
Proof.
  intros Hstep. fix IH 1. intros [its]. apply Hstep.
  induction its as [|item its IHits]; constructor; [apply IH | apply IHits].
Qed.

(** [walk_indices] keeps the lines already written and writes an
    assignment to every variable of the tree. *)
Lemma walk_indices_assigns tree :
  ∀ (prefix indices : string) (st : walk_state),
    ∃ new,
      code (walk_indices prefix indices tree st) = code st ++ new
      ∧ ∀ v, v ∈ tree_vars tree →
             ∃ rhs, str_of v +:+ " = " +:+ rhs ∈ new.
Proof.
  induction tree as [its IH] using range_tree_ind'.
  intros prefix indices st. simpl walk_indices.
  set (subindices := prefix +:+ pretty (cnt st)).
  set (st0 := {| code := code st; cnt := S (cnt st); wargs := wargs st |}).
  change (code st) with (code st0). clearbody st0 subindices. clear st.
  set (F := walk_item (walk_indices prefix) indices subindices).
  revert st0. induction its as [|[size [var subtree]] its IHits]; intros st.
  - exists []. simpl. split; [by rewrite app_nil_r|].
    by intros v ?%elem_of_nil.
  - apply Forall_cons in IH as [IHsub IHrest]. simpl in IHsub.
    specialize (IHits IHrest).
    change (foldl F st ((size, (var, subtree)) :: its))
      with (foldl F (F st (size, (var, subtree))) its).
    set (st1 := F st (size, (var, subtree))).
    assert (H1 : ∃ new1, code st1 = code st ++ new1
                 ∧ ∀ v, v = var ∨ v ∈ tree_vars subtree →
                        ∃ rhs, str_of v +:+ " = " +:+ rhs ∈ new1).
    { unfold st1, F, walk_item. destruct subtree as [[|item sub]].
      - exists [str_of var +:+ " = " +:+ indices]. split; [done|].
        intros v [->|?%elem_of_nil]; [|done].
        exists indices. apply list_elem_of_here.
      - destruct (rename_indexing size (wargs st)) as [size' a].
        set (sz := paren (texpr size')).
        set (st' := emit _ (emit _ _)).
        destruct (IHsub prefix subindices st') as (new & Hcode & Hall).
        exists ([str_of var +:+ " = " +:+ indices +:+ " % " +:+ sz;
                 subindices +:+ " = " +:+ indices +:+ " // " +:+ sz] ++ new).
        split.
        + rewrite Hcode. unfold st'. simpl. by rewrite <- !app_assoc.
        + intros v [->|Hv].
          * exists (indices +:+ " % " +:+ sz). apply elem_of_app. left.
            apply list_elem_of_here.
          * destruct (Hall v Hv) as [rhs Hrhs]. exists rhs.
            apply elem_of_app. by right. }
    destruct H1 as (new1 & Hcode1 & Hall1).
    destruct (IHits st1) as (new2 & Hcode2 & Hall2).
    exists (new1 ++ new2). split.
    + by rewrite Hcode2, Hcode1, app_assoc.
    + intros v. rewrite tree_vars_cons, elem_of_cons, elem_of_app.
      intros [Hv|[Hv|Hv]].
      * destruct (Hall1 v (or_introl Hv)) as [rhs ?]. exists rhs.
        apply elem_of_app. by left.
      * destruct (Hall1 v (or_intror Hv)) as [rhs ?]. exists rhs.
        apply elem_of_app. by left.
      * destruct (Hall2 v Hv) as [rhs ?]. exists rhs.
        apply elem_of_app. by right.
Qed.

(** X17.  In a kernel that has gone through any [set_ranges] calls since
    its creation, the index prologue of [codegen_kernel] assigns every
    iteration variable and every reduction variable of the kernel: no
    variable that an index expression may mention is left undefined in the
    kernel body. *)
Theorem prologue_assigns_kernel_vars (numel : E)
  (reduction_numel : option E) (calls : list (list E * list E)) (v : E) :
  let self := set_ranges_all calls (init numel reduction_numel) in
  v ∈ iter_vars (kernel self) ++ reduction_vars (kernel self) →
  ∃ rhs, str_of v +:+ " = " +:+ rhs ∈ (codegen_kernel_indices self).1.
Proof.
  intros self Hv.
  destruct (set_ranges_all_well_numbered calls _
              (init_well_numbered numel reduction_numel)) as [Hi Hr _].
  fold self in Hi, Hr. unfold codegen_kernel_indices.
  set (st0 := {| code := []; cnt := 1; wargs := args (kernel self) |}).
  destruct (walk_indices_assigns (iter_range_tree self)
              "indices" "indices0" st0) as (new1 & Hc1 & Hall1).
  set (st1 := walk_indices "indices" "indices0" (iter_range_tree self) st0)
    in *.
  set (st2 := {| code := code st1; cnt := 1; wargs := wargs st1 |}).
  destruct (walk_indices_assigns (reduction_range_tree self)
              "reduction" "reduction0" st2) as (new2 & Hc2 & Hall2).
  simpl. rewrite Hc2. simpl. rewrite Hc1. simpl.
  apply elem_of_app in Hv as [Hv|Hv].
  - destruct (Hall1 v (proj2 (Hi v) Hv)) as [rhs ?]. exists rhs.
    apply elem_of_app. by left.
  - destruct (Hall2 v (proj2 (Hr v) Hv)) as [rhs ?]. exists rhs.
    apply elem_of_app. by right.
Qed.

End RangeTreeProps.

(** ** [TritonKernel]: what [load], [store] and [reduction] leave behind *)

Section KernelFrames.
Import Triton Spec.
Context {E Args : Type} `{!SymPy E, !Common E Args}.
Implicit Types (k : TritonKernel E Args) (index : E).

Ltac run :=
  unfold mbind, method_bind, mret, method_ret, gets, modify, assert, raise,
    rename_indexing_m, args_input_m, args_output_m; simpl.

(** X18.  A [reduction] of [sum], [max] or [min] on a kernel that is not
    inside a reduction fails its assertion only after both compute
    expressions have been generated: the call raises [AssertionError],
    writes no load and no store and stays outside the reduction, but the
    cache holds the masked value and the reduction of its handle, and the
    compute buffer has grown by the assignments of those of the two texts
    that were not cached. *)
Theorem reduction_outside_reduction k (name rt : string) index
  (value dflt : string) :
  inside_reduction k = false →
  (rt, dflt) ∈ [("sum", "0"); ("max", "float('-inf')");
                ("min", "float('inf')")] →
  let out := reduction name rt index value k in
  let w :=
    "tl.where(mask_reduction, " +:+ value +:+ ", " +:+ dflt
    +:+ ") if NEED_MASK else " +:+ value in
  out.2 = Raise AssertionError
  ∧ loads out.1 = loads k ∧ stores out.1 = stores k
  ∧ args out.1 = args k
  ∧ inside_reduction out.1 = false
  ∧ ∃ res res2 : string,
      let r := "tl." +:+ rt +:+ "(" +:+ res +:+ ", 1)" in
      cache (cse out.1) !! w = Some res
      ∧ cache (cse out.1) !! r = Some res2
      ∧ compute out.1
        = compute k
          ++ match cache (cse k) !! w with
             | Some _ => []
             | None => [res +:+ " = " +:+ w]
             end
          ++ match cache (cse k) !! r with
             | Some _ => []
             | None => [res2 +:+ " = " +:+ r]
             end.
Proof.
  intros Hout Hrt out w.
  pose proof (reduction_default_supported rt dflt Hrt) as Hd.
  destruct (reduction_eq k name rt index value dflt Hd)
    as (res & res2 & k2 & Hc1 & Hc2 & Hcomp & Ha & Hl & Hs & _ & _
        & Hin & Heq).
  unfold out. rewrite Heq, Hout. simpl.
  split; [done|]. split; [done|]. split; [done|]. split; [done|].
  split; [congruence|]. by exists res, res2.
Qed.

(** X19.  A [reduction] whose store fails -- the index of the result
    still has a reduction part -- raises [AssertionError] from [indexing]
    and leaves the kernel outside reduction mode: [inside_reduction] is
    not set back, and no store line is written. *)
Theorem reduction_failed_store_leaves_mode k (name rt : string) index
  (value dflt : string) :
  inside_reduction k = true →
  reduction_default rt = Ok dflt →
  (let index' :=
     (rename_indexing index (args_output name (args k)).2).1 in
   let offset := subs_zero (iter_vars k ++ reduction_vars k) index' in
   is_zero (minus (subs_zero (iter_vars k) index') offset) = false) →
  let r := reduction name rt index value k in
  r.2 = Raise AssertionError
  ∧ inside_reduction r.1 = false
  ∧ stores r.1 = stores k.
Proof.
  intros Hin Hd Hred. unfold reduction, ops_store. rewrite Hd. run.
  destruct (cse_generate_compute_frame (where_line value dflt) k)
    as (res & k1 & -> & _ & Ha1 & _ & Hs1 & Hiv1 & Hrv1 & Hin1 & _).
  destruct (cse_generate_compute_frame (reduce_line rt res) k1)
    as (res2 & k2 & -> & _ & Ha2 & _ & Hs2 & Hiv2 & Hrv2 & Hin2 & _).
  rewrite Hin2, Hin1, Hin. simpl.
  pose proof (store_eq (set_inside_reduction false k2) name index res2) as Hst.
  simpl in Hst. rewrite Ha2, Ha1, Hiv2, Hiv1, Hrv2, Hrv1 in Hst.
  destruct (args_output name (args k)) as [var a1]. simpl in Hred.
  destruct (rename_indexing index a1) as [index' a2]. simpl in Hred.
  rewrite Hred in Hst. rewrite Hst. simpl.
  split; [done|]. split; [done|]. congruence.
Qed.

(** X20.  [load] writes at most one line, to the load buffer only, and
    [store] at most one line, to the store buffer only -- exactly one when
    it returns, none when it raises; [store] does not touch the cache; and
    neither changes the mode or the variables of the kernel. *)
Theorem load_store_frame k (name : string) index (value : string) :
  let kl := (load name index k).1 in
  let ks := (store name index value k).1 in
  (compute kl = compute k ∧ stores kl = stores k
   ∧ inside_reduction kl = inside_reduction k
   ∧ iter_vars kl = iter_vars k ∧ reduction_vars kl = reduction_vars k
   ∧ ∃ lines, loads kl = loads k ++ lines ∧ (length lines ≤ 1)%nat)
  ∧ (loads ks = loads k ∧ compute ks = compute k ∧ cse ks = cse k
     ∧ inside_reduction ks = inside_reduction k
     ∧ iter_vars ks = iter_vars k ∧ reduction_vars ks = reduction_vars k
     ∧ ∃ lines, stores ks = stores k ++ lines
                ∧ (((store name index value k).2 = Ok tt
                    ∧ length lines = 1%nat)
                   ∨ ((store name index value k).2 = Raise AssertionError
                      ∧ lines = []))).
Proof.
  split.
  - unfold load. run.
    destruct (args_input name (args k)) as [var a1]. simpl.
    pose proof (indexing_eq (set_args a1 k) index) as H. simpl in H.
    destruct (rename_indexing index a1) as [index' a2]. rewrite H. clear H.
    match goal with |- context [if ?c then _ else _] => destruct c end.
    + match goal with |- context [cse_generate Loads ?e ?k0] =>
        destruct (cse_generate_cases Loads e k0) as [(v & _ & ->)|[_ ->]]
      end; simpl; repeat split; try done.
      * exists []. split; [by rewrite app_nil_r | simpl; lia].
      * eexists [_]. split; [done | simpl; lia].
    + simpl. repeat split; try done.
      exists []. split; [by rewrite app_nil_r | simpl; lia].
  - pose proof (store_eq k name index value) as H.
    destruct (args_output name (args k)) as [var a1].
    destruct (rename_indexing index a1) as [index' a2]. simpl in H.
    rewrite H. clear H.
    match goal with |- context [if ?c then _ else _] => destruct c end;
      simpl; repeat split; try done.
    + eexists [_]. split; [done|]. by left.
    + exists []. rewrite app_nil_r. split; [done|]. by right.
Qed.

End KernelFrames.

(** The statements of X17 to X19 on the plain instance. *)
Section KernelFrameExamples.
Import Triton Ranges.

Lemma prologue_assigns_kernel_vars_witness :
  ∃ rhs,
    "i1" +:+ " = " +:+ rhs
    ∈ (codegen_kernel_indices
         (set_ranges_all [([Symbol "a"; Symbol "b"], [Symbol "c"])]
            (init (Symbol "s0") (Some (Symbol "s1"))))).1.
Proof.
  refine (prologue_assigns_kernel_vars (Symbol "s0") (Some (Symbol "s1"))
            [([Symbol "a"; Symbol "b"], [Symbol "c"])] (Symbol "i1") _).
  vm_compute. apply list_elem_of_further, list_elem_of_here.
Defined.

Example prologue_lines :
  (codegen_kernel_indices
     (set_ranges_all [([Symbol "a"; Symbol "b"], [Symbol "c"]);
                      ([Symbol "a"; Symbol "d"], [Symbol "c"])]
        (init (Symbol "s0") (Some (Symbol "s1"))))).1
  = ["i0 = indices0 % (a)"; "indices1 = indices0 // (a)"; "i1 = indices1";
     "i3 = indices1"; "r2 = reduction0"].
Proof. vm_compute. reflexivity. Qed.

Lemma reduction_outside_reduction_witness :
  let out := reduction "out" "sum" (Symbol "i0") "tmp7"
               (Plain.kernel false) in
  out.2 = Raise AssertionError
  ∧ stores out.1 = []
  ∧ ∃ res res2 : string,
      compute out.1
      = [res +:+ " = tl.where(mask_reduction, tmp7, 0) if NEED_MASK else tmp7";
         res2 +:+ " = tl.sum(" +:+ res +:+ ", 1)"].
Proof.
  destruct (reduction_outside_reduction (Plain.kernel false) "out" "sum"
              (Symbol "i0") "tmp7" "0" eq_refl)
    as (Hr & _ & Hs & _ & _ & res & res2 & _ & _ & Hcomp).
  { apply list_elem_of_here. }
  split; [exact Hr|]. split; [exact Hs|].
  exists res, res2. exact Hcomp.
Defined.

Lemma reduction_failed_store_leaves_mode_witness :
  let r := reduction "out" "sum" (Add (Symbol "i0") (Symbol "r0")) "tmp7"
             (Plain.kernel true) in
  r.2 = Raise AssertionError ∧ inside_reduction r.1 = false
  ∧ stores r.1 = [].
Proof.
  apply (reduction_failed_store_leaves_mode (Plain.kernel true) "out" "sum"
           (Add (Symbol "i0") (Symbol "r0")) "tmp7" "0");
    reflexivity.
Defined.

End KernelFrameExamples.

(** ** [split_sizes], exactly *)

Section SplitSizesExact.
Import Triton Spec.
Context {E : Type} `{!SizeExpr E}.

(** X21.  For size expressions of any kind, compared as sympy's [==]
    compares them: [split_sizes] returns an index exactly when that index
    is below [len(sizes)] and is the least index at which both products
    match, and it returns [None] exactly when no index below
    [len(sizes)] matches: it never returns [len(sizes)], so a split with
    an empty suffix is not found, and on the empty list the result is
    always [None]. *)
Theorem split_sizes_exact (sizes : list E) (prod1 prod2 : E) :
  (∀ i : nat,
     split_sizes sizes prod1 prod2 = Some i ↔
     (i < length sizes)%nat ∧ is_split sizes prod1 prod2 i
     ∧ ∀ j : nat, (j < i)%nat → ¬ is_split sizes prod1 prod2 j)
  ∧ (split_sizes sizes prod1 prod2 = None ↔
     ∀ j : nat, (j < length sizes)%nat → ¬ is_split sizes prod1 prod2 j)
  ∧ split_sizes sizes prod1 prod2 ≠ Some (length sizes)
  ∧ split_sizes [] prod1 prod2 = None.
Proof.
  split; [intros i; apply split_sizes_Some|].
  split; [apply split_sizes_None|].
  split; [|done].
  intros H. apply split_sizes_Some in H as [Hlt _]. lia.
Qed.

End SplitSizesExact.

Section SplitSizesExactExamples.
Import Triton Monomial.

Example split_sizes_empty_suffix :
  split_sizes [2; 3] 6 1 = None ∧ split_sizes [2; 3] 1 6 = Some 0%nat
  ∧ split_sizes [symbol "s0"; symbol "s1"]
      (mul (symbol "s0") (symbol "s1")) (integer 1) = None.
Proof. repeat split; vm_compute; reflexivity. Qed.

End SplitSizesExactExamples.
